(** * Plugin lifecycle manager: registry, lifecycle state machine, dependency resolver

    A shallow embedding of [src/core/models.py], [src/core/plugins/registry.py],
    [src/core/plugins/dependencies.py] and [src/core/plugins/config.py].

    Python objects that are shared by reference (the registry's two dicts, its
    list, and the [PluginMetadata] records stored in the metadata dict) live in
    an object store; methods are state transformers over that store that may
    raise.  Dicts are insertion-ordered association lists, as in Python. *)

From stdpp Require Import gmap strings list fin_maps.
From Stdlib Require Import ZArith Ascii.
From Stdlib Require QArith.

Local Open Scope string_scope.
Local Open Scope list_scope.

(** ** models.py *)

Inductive PluginStatus := REGISTERED | INITIALIZING | ACTIVE | ERROR.
Inductive DependencyType := REQUIRED | OPTIONAL.
Inductive DependencyScope := RUNTIME | TEST.

#[global] Instance PluginStatus_eq_dec : EqDecision PluginStatus.
Proof. solve_decision. Defined.
#[global] Instance DependencyType_eq_dec : EqDecision DependencyType.
Proof. solve_decision. Defined.
#[global] Instance DependencyScope_eq_dec : EqDecision DependencyScope.
Proof. solve_decision. Defined.

Record DependencySpec := {
  dep_name : string;
  dep_version : string;
  dep_type : DependencyType;
  dep_scope : DependencyScope }.

Record TableFormat := {
  tf_name : string;
  tf_version : string;
  tf_dependencies : list (string * string);
  tf_enabled : bool;
  tf_status : PluginStatus }.

Record PluginMetadata := {
  pm_id : string;
  pm_name : string;
  pm_version : string;
  pm_format : TableFormat;
  pm_interfaces : list string;
  pm_dependencies : list (string * DependencySpec) }.

Record ValidationResult := {
  is_valid : bool;
  errors : list string;
  warnings : list string }.

Record CompatibilityResult := {
  is_compatible : bool;
  conflicts : list (list (string * string)) }.

(** [metadata.format.status = s] *)
Definition set_format_status (s : PluginStatus) (m : PluginMetadata) : PluginMetadata :=
  {| pm_id := pm_id m; pm_name := pm_name m; pm_version := pm_version m;
     pm_format := {| tf_name := tf_name (pm_format m);
                     tf_version := tf_version (pm_format m);
                     tf_dependencies := tf_dependencies (pm_format m);
                     tf_enabled := tf_enabled (pm_format m);
                     tf_status := s |};
     pm_interfaces := pm_interfaces m;
     pm_dependencies := pm_dependencies m |}.

(** [ValidationResult(is_valid=False, errors=[msg])]: warnings default to []. *)
Definition failure (errs : list string) : ValidationResult :=
  {| is_valid := false; errors := errs; warnings := [] |}.

(** [ValidationResult(is_valid=True)] *)
Definition success : ValidationResult :=
  {| is_valid := true; errors := []; warnings := [] |}.

(** ** Exceptions *)

(** The exceptions the modelled code can meet.  [Exception msg] is an instance
    of [Exception] or of one of its subclasses that a collaborator raised, known
    through [str(e) = msg].  [BaseException msg] is an instance of a class outside
    [Exception]: [asyncio.CancelledError] at an [await], [KeyboardInterrupt],
    [SystemExit], [GeneratorExit]. *)
Inductive exn :=
  | KeyError (key : string)
  | UnboundLocalError (var : string)
  | Exception (msg : string)
  | BaseException (msg : string).

(** [isinstance(e, Exception)]: [KeyError] derives from [LookupError] and
    [UnboundLocalError] from [NameError], both under [Exception]. *)
Definition is_exception (e : exn) : bool :=
  match e with
  | BaseException _ => false
  | _ => true
  end.

(** [str(e)].  A [KeyError] prints the repr of its key (quotes inside the key
    would be escaped by Python; plugin ids here carry none). *)
Definition str_exn (e : exn) : string :=
  match e with
  | KeyError k => "'" +:+ k +:+ "'"
  | UnboundLocalError v =>
      "cannot access local variable '" +:+ v +:+ "' where it is not associated with a value"
  | Exception msg => msg
  | BaseException msg => msg
  end.

Inductive exc (A : Type) :=
  | Ok (a : A)
  | Raise (e : exn).
Arguments Ok {A} a.
Arguments Raise {A} e.

(** ** Python dicts: insertion-ordered association lists *)

Module Dict.
Section Dict.
Context {V : Type}.

(** [d.get(k)] *)
Fixpoint get (d : list (string * V)) (k : string) : option V :=
match d with
| [] => None
| (k', v) :: d' => if decide (k' = k) then Some v else get d' k
end.

(** [k in d] *)
Definition contains (d : list (string * V)) (k : string) : bool :=
bool_decide (is_Some (get d k)).

(** [d[k] = v]: an existing key keeps its place, a new one goes last. *)
Fixpoint set (d : list (string * V)) (k : string) (v : V) : list (string * V) :=
match d with
| [] => [(k, v)]
| (k', v') :: d' =>
    if decide (k' = k) then (k, v) :: d' else (k', v') :: set d' k v
end.

(** [d[k]] *)
Definition getitem (d : list (string * V)) (k : string) : exc V :=
match get d k with
| Some v => Ok v
| None => Raise (KeyError k)
end.

Definition keys (d : list (string * V)) : list string := d.*1.
Definition values (d : list (string * V)) : list V := d.*2.

End Dict.
End Dict.

(** ** base.py: what the registry reads of a plugin object *)

(** A class of a plugin's method resolution order, as
    [_get_implemented_interfaces] inspects it. *)
Record PyClass := {
  cls_name : string;
  cls_is_object : bool;
  cls_has_abstractmethods : bool }.

(** An [ITableFormatPlugin] instance: its identity properties, its truth value
    and the MRO of its class.  [plugin_truthy] is [bool(plugin)]: [True] unless
    the class defines a [__bool__] or a [__len__] that makes the object falsy;
    it is taken not to change over the life of the object.  Its fallible
    actions ([initialize], [shutdown], [validate_dependencies],
    [check_version_compatibility]) are external to the registry; each registry
    method below receives the outcome of the actions it awaits.  An action is
    taken not to call back into the registry while it runs. *)
Record Plugin := {
  plugin_id : string;
  plugin_name : string;
  plugin_version : string;
  plugin_truthy : bool;
  plugin_mro : list PyClass }.

(** ** The object store *)

Abbreviation loc := positive.

Inductive obj :=
  | PluginDict (d : list (string * Plugin))
  | MetaDict (d : list (string * loc))
  | StrList (l : list string)
  | MetaObj (m : PluginMetadata).

Abbreviation store := (gmap loc obj).

(** A computation over a state [S] that returns or raises; a raise keeps the
    mutations made before it. *)
Definition ST (S A : Type) : Type := S → exc A * S.

Definition ret {S A} (a : A) : ST S A := λ σ, (Ok a, σ).
Definition raise {S A} (e : exn) : ST S A := λ σ, (Raise e, σ).
Definition bind {S A B} (m : ST S A) (k : A → ST S B) : ST S B :=
  λ σ, match m σ with
       | (Ok a, σ') => k a σ'
       | (Raise e, σ') => (Raise e, σ')
       end.

#[global] Instance ST_ret {S} : MRet (ST S) := λ A, ret.
#[global] Instance ST_bind {S} : MBind (ST S) := λ A B k m, bind m k.

(** [try: m  except Exception as e: h e].  The handler takes what derives from
    [Exception]; anything else leaves the statement as it was raised, with the
    mutations made before it. *)
Definition try_except {S A} (m : ST S A) (h : exn → ST S A) : ST S A :=
  λ σ, match m σ with
       | (Ok a, σ') => (Ok a, σ')
       | (Raise e, σ') => if is_exception e then h e σ' else (Raise e, σ')
       end.

(** [await] on a collaborator whose outcome is [r]. *)
Definition await {S A} (r : exc A) : ST S A := λ σ, (r, σ).

(** Registry methods run over the object store. *)
Abbreviation M := (ST store).

(** Reading through a reference.  A Python reference always points at a live
    object of its class; the fall-back values are for stores that are not
    well formed and are never met from a constructed registry
    ([reachable_wf]). *)
Definition plugin_dict (σ : store) (l : loc) : list (string * Plugin) :=
  match σ !! l with Some (PluginDict d) => d | _ => [] end.
Definition meta_dict (σ : store) (l : loc) : list (string * loc) :=
  match σ !! l with Some (MetaDict d) => d | _ => [] end.
Definition str_list (σ : store) (l : loc) : list string :=
  match σ !! l with Some (StrList xs) => xs | _ => [] end.
Definition meta_obj (σ : store) (l : loc) : option PluginMetadata :=
  match σ !! l with Some (MetaObj m) => Some m | _ => None end.

Definition read {A} (f : store → A) : M A := λ σ, (Ok (f σ), σ).
Definition write (l : loc) (o : obj) : M unit := λ σ, (Ok (), <[l:=o]> σ).
Definition alloc (o : obj) : M loc :=
  λ σ, let l := fresh (dom σ) in (Ok l, <[l:=o]> σ).

(** [metadata.format.status = s] on the record at [l] *)
Definition set_status (l : loc) (s : PluginStatus) : M unit :=
  λ σ, match meta_obj σ l with
       | Some m => (Ok (), <[l:=MetaObj (set_format_status s m)]> σ)
       | None => (Ok (), σ)
       end.

(** ** registry.py *)

Record PluginRegistry := {
  _plugins : loc;
  _metadata : loc;
  _active_formats : loc }.

(** [list.remove(x)]: drops the first occurrence. *)
Fixpoint list_remove (x : string) (l : list string) : list string :=
  match l with
  | [] => []
  | y :: l' => if decide (y = x) then l' else y :: list_remove x l'
  end.

(** [PluginRegistry.__init__] *)
Definition PluginRegistry_init : M PluginRegistry :=
  p ← alloc (PluginDict []);
  m ← alloc (MetaDict []);
  a ← alloc (StrList []);
  mret {| _plugins := p; _metadata := m; _active_formats := a |}.

(** The three read properties: each returns a new container holding the same
    elements ([.copy()] is shallow). *)
Definition plugins (self : PluginRegistry) : M loc :=
  d ← read (λ σ, plugin_dict σ (_plugins self));
  alloc (PluginDict d).

Definition metadata (self : PluginRegistry) : M loc :=
  d ← read (λ σ, meta_dict σ (_metadata self));
  alloc (MetaDict d).

Definition active_formats (self : PluginRegistry) : M loc :=
  l ← read (λ σ, str_list σ (_active_formats self));
  alloc (StrList l).

(** [_get_implemented_interfaces] *)
Definition _get_implemented_interfaces (plugin : Plugin) : list string :=
  cls_name <$>
    filter (λ base, negb (cls_is_object base) && cls_has_abstractmethods base = true)
           (plugin_mro plugin).

Section Registry.
(** [str] of a [conflicts] list inside an f-string (Python's repr of a list
    of dicts). *)
Variable repr_conflicts : list (list (string * string)) → string.

(** [check_version_compatibility] and [validate_dependencies] are the plugin's
    two checks: the first is applied to [list(self._plugins.values())], the
    second is the outcome of the call.  Neither is in a [try] block. *)
Definition register_plugin (self : PluginRegistry) (plugin : Plugin)
    (check_version_compatibility : list Plugin → exc CompatibilityResult)
    (validate_dependencies : exc ValidationResult) : M ValidationResult :=
  registered ← read (λ σ, plugin_dict σ (_plugins self));
  if Dict.contains registered (plugin_id plugin) then
    mret (failure ["Plugin " +:+ plugin_id plugin +:+ " is already registered"])
  else
    compat_result ← await (check_version_compatibility (Dict.values registered));
    if negb (is_compatible compat_result) then
      mret (failure ["Version compatibility check failed: "
                     +:+ repr_conflicts (conflicts compat_result)])
    else
      dep_result ← await validate_dependencies;
      if negb (is_valid dep_result) then
        mret (failure (errors dep_result))
      else
        let format_info :=
          {| tf_name := plugin_name plugin;
             tf_version := plugin_version plugin;
             tf_dependencies := [];
             tf_enabled := true;
             tf_status := REGISTERED |} in
        metadata ← alloc (MetaObj
          {| pm_id := plugin_id plugin;
             pm_name := plugin_name plugin;
             pm_version := plugin_version plugin;
             pm_format := format_info;
             pm_interfaces := _get_implemented_interfaces plugin;
             pm_dependencies := [] |});
        ps ← read (λ σ, plugin_dict σ (_plugins self));
        write (_plugins self) (PluginDict (Dict.set ps (plugin_id plugin) plugin));;
        ms ← read (λ σ, meta_dict σ (_metadata self));
        write (_metadata self) (MetaDict (Dict.set ms (plugin_id plugin) metadata));;
        mret success.

(** [not plugin] on the result of [self._plugins.get(plugin_id)]: true of
    [None] and of a plugin object that is falsy. *)
Definition falsy (plugin : option Plugin) : bool :=
  match plugin with
  | Some plugin => negb (plugin_truthy plugin)
  | None => true
  end.

(** [initialize] is the outcome of [await plugin.initialize()]. *)
Definition initialize_plugin (self : PluginRegistry) (plugin_id : string)
    (initialize : exc unit) : M ValidationResult :=
  plugin ← read (λ σ, Dict.get (plugin_dict σ (_plugins self)) plugin_id);
  if falsy plugin then mret (failure ["Plugin " +:+ plugin_id +:+ " not found"])
  else
    looked_up ← read (λ σ, Dict.getitem (meta_dict σ (_metadata self)) plugin_id);
    match looked_up with
    | Raise _ =>
        (* the handler reads [metadata], which the try block never bound *)
        raise (UnboundLocalError "metadata")
    | Ok metadata =>
        try_except
          (set_status metadata INITIALIZING;;
           await initialize;;
           set_status metadata ACTIVE;;
           active ← read (λ σ, str_list σ (_active_formats self));
           (if bool_decide (plugin_id ∈ active) then mret ()
            else write (_active_formats self) (StrList (active ++ [plugin_id])));;
           mret success)
          (λ e,
           set_status metadata ERROR;;
           mret (failure ["Failed to initialize plugin " +:+ plugin_id +:+ ": "
                          +:+ str_exn e]))
    end.

(** [shutdown] is the outcome of [await plugin.shutdown()]. *)
Definition shutdown_plugin (self : PluginRegistry) (plugin_id : string)
    (shutdown : exc unit) : M ValidationResult :=
  plugin ← read (λ σ, Dict.get (plugin_dict σ (_plugins self)) plugin_id);
  if falsy plugin then mret (failure ["Plugin " +:+ plugin_id +:+ " not found"])
  else
    try_except
      (await shutdown;;
       looked_up ← read (λ σ, Dict.getitem (meta_dict σ (_metadata self)) plugin_id);
       metadata ← await looked_up;
       set_status metadata REGISTERED;;
       active ← read (λ σ, str_list σ (_active_formats self));
       (if bool_decide (plugin_id ∈ active)
        then write (_active_formats self) (StrList (list_remove plugin_id active))
        else mret ());;
       mret success)
      (λ e,
       mret (failure ["Failed to shutdown plugin " +:+ plugin_id +:+ ": "
                      +:+ str_exn e])).

(** [get_plugin] and [get_plugin_metadata]: [dict.get], [None] when absent. *)
Definition get_plugin (self : PluginRegistry) (plugin_id : string) : M (option Plugin) :=
  read (λ σ, Dict.get (plugin_dict σ (_plugins self)) plugin_id).

Definition get_plugin_metadata (self : PluginRegistry) (plugin_id : string)
    : M (option loc) :=
  read (λ σ, Dict.get (meta_dict σ (_metadata self)) plugin_id).
End Registry.

(** ** Observing a registry in a store *)

Definition plugins_of (σ : store) (self : PluginRegistry) : list (string * Plugin) :=
  plugin_dict σ (_plugins self).
Definition metadata_refs (σ : store) (self : PluginRegistry) : list (string * loc) :=
  meta_dict σ (_metadata self).
Definition active_of (σ : store) (self : PluginRegistry) : list string :=
  str_list σ (_active_formats self).

(** The record the registry holds for [id]. *)
Definition metadata_of (σ : store) (self : PluginRegistry) (id : string)
    : option PluginMetadata :=
  Dict.get (metadata_refs σ self) id ≫= meta_obj σ.

Definition status_of (σ : store) (self : PluginRegistry) (id : string)
    : option PluginStatus :=
  (λ m, tf_status (pm_format m)) <$> metadata_of σ self id.

Definition registered (σ : store) (self : PluginRegistry) (id : string) : Prop :=
  is_Some (Dict.get (plugins_of σ self) id).

(** [id] names a plugin that the lifecycle methods find: registered, and
    truthy. *)
Definition operable (σ : store) (self : PluginRegistry) (id : string) : Prop :=
  falsy (Dict.get (plugins_of σ self) id) = false.

(** The metadata map as a caller reads it: every id with the record behind it. *)
Definition metadata_view (σ : store) (self : PluginRegistry)
    : list (string * option PluginMetadata) :=
  (λ kv, (kv.1, meta_obj σ kv.2)) <$> metadata_refs σ self.

(** ** Sequences of registry calls *)

Inductive call :=
  | Register (plugin : Plugin)
             (check_version_compatibility : list Plugin → exc CompatibilityResult)
             (validate_dependencies : exc ValidationResult)
  | Initialize (plugin_id : string) (initialize : exc unit)
  | Shutdown (plugin_id : string) (shutdown : exc unit).

(** The outcome of an action is one that [except Exception] handles: the action
    returned, or raised an [Exception]. *)
Definition caught {A} (outcome : exc A) : bool :=
  match outcome with
  | Ok _ => true
  | Raise e => is_exception e
  end.

(** An [initialize] action that raised outside [Exception], as a cancelled task
    does at the [await]. *)
Definition interrupted (c : call) : bool :=
  match c with
  | Initialize _ initialize => negb (caught initialize)
  | _ => false
  end.

Section Runs.
Variable repr_conflicts : list (list (string * string)) → string.

Definition do_call (self : PluginRegistry) (c : call) : M ValidationResult :=
  match c with
  | Register plugin compat deps => register_plugin repr_conflicts self plugin compat deps
  | Initialize id initialize => initialize_plugin self id initialize
  | Shutdown id shutdown => shutdown_plugin self id shutdown
  end.

(** The store a call leaves, whether it returned or raised. *)
Definition step (self : PluginRegistry) (c : call) (σ : store) : store :=
  (do_call self c σ).2.

Definition run (self : PluginRegistry) (cs : list call) (σ : store) : store :=
  foldl (λ σ c, step self c σ) σ cs.

(** The stores a registry can be in: constructed in some store, then driven
    by any calls with any collaborator outcomes. *)
Inductive reachable : store → PluginRegistry → Prop :=
  | reachable_init σ0 σ self :
      PluginRegistry_init σ0 = (Ok self, σ) → reachable σ self
  | reachable_step σ self c :
      reachable σ self → reachable (step self c σ) self.

(** The same, by calls of which no [initialize] action was [interrupted]. *)
Inductive reachable_uninterrupted : store → PluginRegistry → Prop :=
  | reachable_uninterrupted_init σ0 σ self :
      PluginRegistry_init σ0 = (Ok self, σ) → reachable_uninterrupted σ self
  | reachable_uninterrupted_step σ self c :
      reachable_uninterrupted σ self → interrupted c = false →
      reachable_uninterrupted (step self c σ) self.
End Runs.

(** A store in which the registry's references are live, the two dicts have the
    same keys, and every id has a metadata record of its own. *)
Record wf (σ : store) (self : PluginRegistry) : Prop := {
  wf_plugins : σ !! _plugins self = Some (PluginDict (plugins_of σ self));
  wf_metadata : σ !! _metadata self = Some (MetaDict (metadata_refs σ self));
  wf_active : σ !! _active_formats self = Some (StrList (active_of σ self));
  wf_keys : Dict.keys (plugins_of σ self) = Dict.keys (metadata_refs σ self);
  wf_refs : ∀ id l, (id, l) ∈ metadata_refs σ self → is_Some (meta_obj σ l);
  wf_inj : ∀ id1 id2 l,
    Dict.get (metadata_refs σ self) id1 = Some l →
    Dict.get (metadata_refs σ self) id2 = Some l → id1 = id2 }.

(** ** models.py: structured errors *)

(** The values the resolver stores in an error's [context] dict. *)
Inductive ctx_value :=
  | CtxStr (s : string)
  | CtxNone
  | CtxPairs (l : list (string * string)).

Record ErrorResponse := {
  code : string;
  severity : string;
  component : string;
  message : string;
  context : list (string * ctx_value);
  resolution : list string;
  timestamp : Z }.

(** ** config.py *)

(** [cache_ttl] is a [timedelta], counted in microseconds. *)
Record DependencyConfig := {
  cache_ttl : Z;
  max_depth : Z;
  ignore_optional : bool;
  package_index : string;
  extra_indexes : option (list string);
  lookup_timeout : QArith_base.Q }.

(** [DependencyConfig.default()] *)
Definition DependencyConfig_default : DependencyConfig :=
  {| cache_ttl := 3600 * 1000000;
     max_depth := 5;
     ignore_optional := true;
     package_index := "https://pypi.org/simple";
     extra_indexes := None;
     lookup_timeout := QArith_base.Qmake 5 1 |}.

(** ** dependencies.py *)

(** [for x in xs: acc = f x acc] *)
Fixpoint for_each {S A B} (f : A → B → ST S B) (xs : list A) (acc : B) : ST S B :=
  match xs with
  | [] => mret acc
  | x :: xs' => acc' ← f x acc; for_each f xs' acc'
  end.

(** The [packaging] library: versions, requirement parsing and specifier
    membership.  [version_0_0_0] is the value of [parse("0.0.0")];
    [Requirement s] is [Requirement(s).specifier], or the exception the
    constructor raises on a malformed string: [InvalidRequirement], a
    [ValueError], and so always an [Exception]. *)
Class Packaging := {
  Version : Type;
  version_0_0_0 : Version;
  str_Version : Version → string;
  SpecifierSet : Type;
  Requirement : string → exc SpecifierSet;
  specifier_contains : SpecifierSet → Version → bool;
  Requirement_raises_Exception s e :
    Requirement s = Raise e → is_exception e = true }.

(** The rest of the resolver's environment: [str(e)] of an [ErrorResponse]
    (pydantic's rendering); the wall clock, where [utcnow_at n] is what the
    [n]-th call of [datetime.utcnow()] returns, in microseconds; and the order
    in which a set of requirements is iterated. *)
Class Runtime := {
  str_ErrorResponse : ErrorResponse → string;
  utcnow_at : nat → Z;
  set_iter : gset (string * string) → list (string * string) }.

Section Dependencies.
Context `{Packaging, Runtime}.

Record DependencyManager := {
  _config : DependencyConfig;
  _dependency_cache : list (string * list (string * Version));
  _validation_cache : gmap (string * string) (ValidationResult * Z) }.

(** The manager together with the history of its environment: how often the
    clock was read, and the package names [_get_installed_version] was asked
    for (oldest first). *)
Record World := {
  manager : DependencyManager;
  clock_reads : nat;
  lookups : list string }.

Abbreviation D := (ST World).

(** [DependencyManager.__init__]: [config or DependencyConfig.default()] *)
Definition DependencyManager_init (config : option DependencyConfig) : DependencyManager :=
  {| _config := default DependencyConfig_default config;
     _dependency_cache := [];
     _validation_cache := ∅ |}.

(** The world after one more reading of the clock. *)
Definition clock_read (w : World) : World :=
  {| manager := manager w;
     clock_reads := S (clock_reads w);
     lookups := lookups w |}.

(** [datetime.utcnow()] *)
Definition utcnow : D Z := λ w, (Ok (utcnow_at (clock_reads w)), clock_read w).

(** [ErrorResponse(...)]: the timestamp defaults to [datetime.utcnow()]. *)
Definition ErrorResponse_new (code severity component message : string)
    (context : list (string * ctx_value)) (resolution : list string) : D ErrorResponse :=
  now ← utcnow;
  mret {| code := code; severity := severity; component := component;
          message := message; context := context; resolution := resolution;
          timestamp := now |}.

Definition _get_installed_version (package_name : string) : D (option Version) :=
  λ w, (Ok (Some version_0_0_0),
        {| manager := manager w;
           clock_reads := clock_reads w;
           lookups := lookups w ++ [package_name] |}).

(** [self._validation_cache[cache_key] = entry] *)
Definition cache_store (cache_key : string * string) (entry : ValidationResult * Z) : D unit :=
  λ w, (Ok (),
        {| manager :=
             {| _config := _config (manager w);
                _dependency_cache := _dependency_cache (manager w);
                _validation_cache := <[cache_key:=entry]> (_validation_cache (manager w)) |};
           clock_reads := clock_reads w;
           lookups := lookups w |}).

Definition get {A} (f : World → A) : D A := λ w, (Ok (f w), w).

(** The messages of [validate_dependencies]. *)
Definition not_installed_warning (dep_name : string) : string :=
  "Optional dependency " +:+ dep_name +:+ " is not installed".

Definition mismatch_warning (dep_name : string) (installed_version : Version)
    (dep_spec : DependencySpec) : string :=
  "Optional dependency " +:+ dep_name +:+ " version " +:+ str_Version installed_version
  +:+ " does not match requirement " +:+ dep_version dep_spec.

(** The body of the loop of [validate_dependencies] for one item of
    [plugin_metadata.dependencies]; [acc] is [(errors, warnings)]. *)
Definition validate_dependency (plugin_metadata : PluginMetadata)
    (item : string * DependencySpec) (acc : list ErrorResponse * list string)
    : D (list ErrorResponse * list string) :=
  let '(dep_name, dep_spec) := item in
  let '(errors, warnings) := acc in
  if decide (dep_scope dep_spec = TEST) then mret acc
  else
    try_except
      (installed_version ← _get_installed_version dep_name;
       match installed_version with
       | None =>
           if decide (dep_type dep_spec = REQUIRED) then
             e ← ErrorResponse_new "DEP001" "ERROR" (pm_id plugin_metadata)
                   ("Required dependency " +:+ dep_name +:+ " is not installed")
                   [("operation", CtxStr "dependency_validation");
                    ("dependency", CtxStr dep_name);
                    ("required_version", CtxStr (dep_version dep_spec));
                    ("found_version", CtxNone)]
                   ["Install " +:+ dep_name +:+ " version " +:+ dep_version dep_spec;
                    "Check package repository accessibility"];
             mret (errors ++ [e], warnings)
           else mret (errors, warnings ++ [not_installed_warning dep_name])
       | Some installed_version =>
           req ← await (Requirement (dep_name +:+ dep_version dep_spec));
           if negb (specifier_contains req installed_version) then
             if decide (dep_type dep_spec = REQUIRED) then
               e ← ErrorResponse_new "DEP002" "ERROR" (pm_id plugin_metadata)
                     ("Incompatible version for " +:+ dep_name)
                     [("operation", CtxStr "dependency_validation");
                      ("dependency", CtxStr dep_name);
                      ("required_version", CtxStr (dep_version dep_spec));
                      ("found_version", CtxStr (str_Version installed_version))]
                     ["Upgrade " +:+ dep_name +:+ " to version " +:+ dep_version dep_spec;
                      "Or downgrade plugin to version compatible with " +:+ dep_name
                      +:+ " " +:+ str_Version installed_version];
               mret (errors ++ [e], warnings)
             else
               mret (errors, warnings ++ [mismatch_warning dep_name installed_version dep_spec])
           else mret acc
       end)
      (λ exn_,
       e ← ErrorResponse_new "DEP003" "ERROR" (pm_id plugin_metadata)
             ("Error validating dependency " +:+ dep_name)
             [("operation", CtxStr "dependency_validation");
              ("dependency", CtxStr dep_name);
              ("error", CtxStr (str_exn exn_))]
             ["Check package name and version format";
              "Verify package manager is functioning"];
       mret (errors ++ [e], warnings)).

(** [ValidationResult(is_valid=len(errors) == 0, errors=[str(e) for e in errors],
    warnings=warnings)] *)
Definition validation_result (errs : list ErrorResponse) (warns : list string)
    : ValidationResult :=
  {| is_valid := bool_decide (length errs = 0);
     errors := str_ErrorResponse <$> errs;
     warnings := warns |}.

(** The lines of [validate_dependencies] after the cache check. *)
Definition validate_uncached (plugin_metadata : PluginMetadata) : D ValidationResult :=
  let cache_key := (pm_id plugin_metadata, pm_version plugin_metadata) in
  acc ← for_each (validate_dependency plugin_metadata)
                 (pm_dependencies plugin_metadata) ([], []);
  let result := validation_result acc.1 acc.2 in
  now ← utcnow;
  cache_store cache_key (result, now);;
  mret result.

Definition validate_dependencies (plugin_metadata : PluginMetadata) : D ValidationResult :=
  let cache_key := (pm_id plugin_metadata, pm_version plugin_metadata) in
  cached ← get (λ w, _validation_cache (manager w) !! cache_key);
  match cached with
  | Some (result, timestamp) =>
      now ← utcnow;
      ttl ← get (λ w, cache_ttl (_config (manager w)));
      if bool_decide (now - timestamp < ttl)%Z
      then mret result
      else validate_uncached plugin_metadata
  | None => validate_uncached plugin_metadata
  end.
(** [_merge_version_requirements]: [next(iter(requirements))[1] if requirements
    else None]; [next] on an exhausted iterator raises [StopIteration]. *)
Definition _merge_version_requirements (requirements : gset (string * string))
    : exc (option string) :=
  if decide (requirements = ∅) then Ok None
  else match set_iter requirements with
       | first :: _ => Ok (Some first.2)
       | [] => Raise (Exception "")
       end.

(** Truthiness of an [Optional[str]]: [None] and the empty string are false. *)
Definition truthy (merged : option string) : bool :=
  match merged with
  | None => false
  | Some v => negb (bool_decide (v = ""))
  end.

(** The first loop of [resolve_dependencies]: the dict from dependency name to
    the set of [(plugin.id, dep_spec.version)] pairs. *)
Definition add_requirement (plugin : PluginMetadata)
    (dependencies : list (string * gset (string * string)))
    (item : string * DependencySpec) : list (string * gset (string * string)) :=
  let '(dep_name, dep_spec) := item in
  let dependencies :=
    if Dict.contains dependencies dep_name then dependencies
    else Dict.set dependencies dep_name ∅ in
  Dict.set dependencies dep_name
    ({[ (pm_id plugin, dep_version dep_spec) ]}
     ∪ default ∅ (Dict.get dependencies dep_name)).

Definition dependency_graph (plugins : list PluginMetadata)
    : list (string * gset (string * string)) :=
  foldl (λ dependencies plugin,
           foldl (add_requirement plugin) dependencies (pm_dependencies plugin))
        [] plugins.

(** The body of the second loop of [resolve_dependencies]; [errors] is the list
    built so far. *)
Definition resolve_requirement (item : string * gset (string * string))
    (errors : list ErrorResponse) : D (list ErrorResponse) :=
  let '(dep_name, requirements) := item in
  if bool_decide (1 < size requirements) then
    try_except
      (merged_requirement ← await (_merge_version_requirements requirements);
       if negb (truthy merged_requirement) then
         let plugins_str :=
           String.concat ", "
             ((λ r, r.1 +:+ " (" +:+ r.2 +:+ ")") <$> set_iter requirements) in
         e ← ErrorResponse_new "DEP004" "ERROR" "dependency_resolver"
               ("Incompatible version requirements for " +:+ dep_name)
               [("operation", CtxStr "dependency_resolution");
                ("dependency", CtxStr dep_name);
                ("requirements", CtxPairs (set_iter requirements))]
               ["Resolve version conflict for " +:+ dep_name +:+ " between plugins: "
                +:+ plugins_str;
                "Consider updating plugins to use compatible versions"];
         mret (errors ++ [e])
       else mret errors)
      (λ exn_,
       e ← ErrorResponse_new "DEP005" "ERROR" "dependency_resolver"
             ("Error resolving versions for " +:+ dep_name)
             [("operation", CtxStr "dependency_resolution");
              ("dependency", CtxStr dep_name);
              ("error", CtxStr (str_exn exn_))]
             ["Check version requirement format";
              "Verify all version specifications are valid"];
       mret (errors ++ [e]))
  else mret errors.

(** The errors [resolve_dependencies] collects, before they are rendered. *)
Definition resolve_errors (plugins : list PluginMetadata) : D (list ErrorResponse) :=
  for_each resolve_requirement (dependency_graph plugins) [].

Definition resolve_dependencies (plugins : list PluginMetadata) : D ValidationResult :=
  errs ← resolve_errors plugins;
  mret (validation_result errs []).

(** The names [validate_dependencies] looks up for a dependency map: those of
    the items outside the [TEST] scope, in order. *)
Definition runtime_names (items : list (string * DependencySpec)) : list string :=
  (filter (λ item, dep_scope item.2 ≠ TEST) items).*1.
End Dependencies.

(** ** An environment for the examples *)

(** A small [packaging]: a version is its release segments, a requirement has
    at most one clause [op version] after the package name. *)
Module Demo.
Inductive op := Ge | Gt | Le | Lt | Same | Differs.

Definition is_digit (c : ascii) : bool :=
  Nat.leb 48 (nat_of_ascii c) && Nat.leb (nat_of_ascii c) 57.

Fixpoint parse_release (s : string) (cur : option nat) (acc : list nat)
    : option (list nat) :=
  match s with
  | EmptyString =>
      match cur with Some n => Some (acc ++ [n]) | None => None end
  | String c s' =>
      if is_digit c then
        parse_release s' (Some (10 * default 0 cur + (nat_of_ascii c - 48))) acc
      else if Ascii.eqb c "." then
        match cur with Some n => parse_release s' None (acc ++ [n]) | None => None end
      else None
  end.

Definition clause (o : op) (v : string) : exc (option (op * list nat)) :=
  match parse_release v None [] with
  | Some release => Ok (Some (o, release))
  | None => Raise (Exception ("Invalid version: '" +:+ v +:+ "'"))
  end.

Fixpoint parse_requirement (s : string) : exc (option (op * list nat)) :=
  match s with
  | EmptyString => Ok None
  | String ">" (String "=" v) => clause Ge v
  | String "<" (String "=" v) => clause Le v
  | String "=" (String "=" v) => clause Same v
  | String "!" (String "=" v) => clause Differs v
  | String ">" v => clause Gt v
  | String "<" v => clause Lt v
  | String _ s' => parse_requirement s'
  end.

(** Release segments compare left to right, a missing segment counting as 0. *)
Fixpoint compare_release (a b : list nat) : comparison :=
  match a with
  | [] => if forallb (Nat.eqb 0) b then Eq else Datatypes.Lt
  | x :: a' =>
      match Nat.compare x (hd 0 b) with
      | Eq => compare_release a' (tl b)
      | c => c
      end
  end.

Definition satisfies (spec : option (op * list nat)) (v : list nat) : bool :=
  match spec with
  | None => true
  | Some (o, bound) =>
      match o, compare_release v bound with
      | Ge, (Eq | Datatypes.Gt) | Gt, Datatypes.Gt
      | Le, (Eq | Datatypes.Lt) | Lt, Datatypes.Lt
      | Same, Eq
      | Differs, (Datatypes.Lt | Datatypes.Gt) => true
      | _, _ => false
      end
  end.

Fixpoint digits (fuel n : nat) (acc : string) : string :=
  match fuel with
  | 0 => acc
  | S fuel' =>
      let acc' := String (ascii_of_nat (48 + n mod 10)) acc in
      if Nat.ltb n 10 then acc' else digits fuel' (n / 10) acc'
  end.

Definition show_release (v : list nat) : string :=
  String.concat "." ((λ n, digits (S n) n "") <$> v).

Definition clause_raises_Exception (o : op) (v : string) (e : exn)
    : clause o v = Raise e → is_exception e = true.
Proof. unfold clause. destruct (parse_release v None []); by intros [= <-]. Defined.

Definition parse_requirement_raises_Exception (s : string) (e : exn)
    : parse_requirement s = Raise e → is_exception e = true.
Proof.
  induction s as [|c s IH]; [done|].
  cbn [parse_requirement].
  repeat case_match; eauto using clause_raises_Exception.
Defined.

#[global] Instance packaging : Packaging :=
  {| Version := list nat;
     version_0_0_0 := [0; 0; 0];
     str_Version := show_release;
     SpecifierSet := option (op * list nat);
     Requirement := parse_requirement;
     specifier_contains := satisfies;
     Requirement_raises_Exception := parse_requirement_raises_Exception |}.

(** One second passes between two readings of the clock; sets are iterated in
    the order of [elements]. *)
#[global] Instance runtime : Runtime :=
  {| str_ErrorResponse :=
       λ e, "code='" +:+ code e +:+ "' component='" +:+ component e
            +:+ "' message='" +:+ message e +:+ "'";
     utcnow_at := λ n, (Z.of_nat n * 1000000)%Z;
     set_iter := elements |}.

(** A fresh manager, with the default configuration or with a given TTL. *)
Definition world0 : World :=
  {| manager := DependencyManager_init None; clock_reads := 0; lookups := [] |}.

Definition world_ttl (ttl : Z) : World :=
  {| manager := DependencyManager_init (Some
       {| cache_ttl := ttl; max_depth := 5; ignore_optional := true;
          package_index := "https://pypi.org/simple"; extra_indexes := None;
          lookup_timeout := QArith_base.Qmake 5 1 |});
     clock_reads := 0; lookups := [] |}.

(** The plugins of the repository's tests. *)
Definition numpy_plugin (id name requirement : string) : PluginMetadata :=
  {| pm_id := id; pm_name := name; pm_version := "1.0.0";
     pm_format := {| tf_name := name; tf_version := "1.0.0"; tf_dependencies := [];
                     tf_enabled := true; tf_status := REGISTERED |};
     pm_interfaces := [];
     pm_dependencies :=
       [("numpy", {| dep_name := "numpy"; dep_version := requirement;
                     dep_type := REQUIRED; dep_scope := RUNTIME |})] |}.

Definition plugin1 : PluginMetadata := numpy_plugin "plugin1" "Plugin 1" ">=1.20.0".
Definition plugin2 : PluginMetadata := numpy_plugin "plugin2" "Plugin 2" "<1.20.0".

Definition sample_plugin_metadata : PluginMetadata :=
  {| pm_id := "test-plugin"; pm_name := "Test Plugin"; pm_version := "1.0.0";
     pm_format := {| tf_name := "Test Plugin"; tf_version := "1.0.0";
                     tf_dependencies := []; tf_enabled := true;
                     tf_status := REGISTERED |};
     pm_interfaces := [];
     pm_dependencies :=
       [("numpy", {| dep_name := "numpy"; dep_version := ">=1.20.0";
                     dep_type := REQUIRED; dep_scope := RUNTIME |});
        ("pytest", {| dep_name := "pytest"; dep_version := ">=6.0.0";
                      dep_type := REQUIRED; dep_scope := TEST |})] |}.
End Demo.

(** ** Auxiliary definitions for the proofs *)

#[global] Instance registered_dec σ self id : Decision (registered σ self id).
Proof. unfold registered. apply _. Defined.

#[global] Instance operable_dec σ self id : Decision (operable σ self id).
Proof. unfold operable. apply _. Defined.

(** The store after [register_plugin] stored [plugin]. *)
Definition enrolled (self : PluginRegistry) (plugin : Plugin) (σ : store) : store :=
  let l := fresh (dom σ) in
  let σ1 := <[l:=MetaObj
    {| pm_id := plugin_id plugin;
       pm_name := plugin_name plugin;
       pm_version := plugin_version plugin;
       pm_format := {| tf_name := plugin_name plugin;
                       tf_version := plugin_version plugin;
                       tf_dependencies := [];
                       tf_enabled := true;
                       tf_status := REGISTERED |};
       pm_interfaces := _get_implemented_interfaces plugin;
       pm_dependencies := [] |}]> σ in
  let σ2 := <[_plugins self:=
    PluginDict (Dict.set (plugin_dict σ1 (_plugins self)) (plugin_id plugin) plugin)]> σ1 in
  <[_metadata self:=
    MetaDict (Dict.set (meta_dict σ2 (_metadata self)) (plugin_id plugin) l)]> σ2.

(** The observable effect of a call on a well-formed store. *)
Definition step_effect (σ σ' : store) (self : PluginRegistry) (c : call) : Prop :=
  match c with
  | Register plugin _ _ =>
      active_of σ' self = active_of σ self
      ∧ (σ' = σ
         ∨ (¬ registered σ self (plugin_id plugin)
            ∧ plugins_of σ' self = Dict.set (plugins_of σ self) (plugin_id plugin) plugin
            ∧ ∀ id', status_of σ' self id' =
                     if decide (id' = plugin_id plugin) then Some REGISTERED
                     else status_of σ self id'))
  | Initialize id (Ok _) =>
      if decide (operable σ self id) then
        plugins_of σ' self = plugins_of σ self
        ∧ active_of σ' self =
          (if bool_decide (id ∈ active_of σ self) then active_of σ self
           else active_of σ self ++ [id])
        ∧ ∀ id', status_of σ' self id' =
                 if decide (id' = id) then Some ACTIVE else status_of σ self id'
      else σ' = σ
  | Initialize id (Raise e) =>
      if decide (operable σ self id) then
        plugins_of σ' self = plugins_of σ self
        ∧ active_of σ' self = active_of σ self
        ∧ ∀ id', status_of σ' self id' =
                 if decide (id' = id)
                 then Some (if is_exception e then ERROR else INITIALIZING)
                 else status_of σ self id'
      else σ' = σ
  | Shutdown id (Ok _) =>
      if decide (operable σ self id) then
        plugins_of σ' self = plugins_of σ self
        ∧ active_of σ' self = list_remove id (active_of σ self)
        ∧ ∀ id', status_of σ' self id' =
                 if decide (id' = id) then Some REGISTERED else status_of σ self id'
      else σ' = σ
  | Shutdown id (Raise _) => σ' = σ
  end.

(** ** A registry and a plugin for the examples *)

(** A rendering of a [conflicts] list for the examples: Python's repr of
    strings that need no escaping. *)
Definition repr_plain (conflicts : list (list (string * string))) : string :=
  "[" +:+ String.concat ", "
    ((λ d, "{" +:+ String.concat ", "
              ((λ kv, "'" +:+ kv.1 +:+ "': '" +:+ kv.2 +:+ "'") <$> d) +:+ "}")
     <$> conflicts) +:+ "]".

Definition iceberg : Plugin :=
  {| plugin_id := "iceberg";
     plugin_name := "Apache Iceberg";
     plugin_version := "1.4.0";
     plugin_truthy := true;
     plugin_mro :=
       [ {| cls_name := "IcebergPlugin"; cls_is_object := false;
            cls_has_abstractmethods := true |};
         {| cls_name := "BaseTableFormatPlugin"; cls_is_object := false;
            cls_has_abstractmethods := true |};
         {| cls_name := "ITableFormatPlugin"; cls_is_object := false;
            cls_has_abstractmethods := true |};
         {| cls_name := "ABC"; cls_is_object := false;
            cls_has_abstractmethods := true |};
         {| cls_name := "object"; cls_is_object := true;
            cls_has_abstractmethods := false |} ] |}.

(** [BaseTableFormatPlugin.check_version_compatibility] *)
Definition compatible (other_plugins : list Plugin) : exc CompatibilityResult :=
  Ok {| is_compatible := true; conflicts := [] |}.

(** A registry constructed in the empty store. *)
Definition registry0 : PluginRegistry :=
  {| _plugins := 1; _metadata := 2; _active_formats := 3 |}.
Definition store0 : store := (PluginRegistry_init ∅).2.

(** [iceberg] registered with the base class's checks. *)
Definition register_iceberg : call := Register iceberg compatible (Ok success).

(** The stores of the examples: [iceberg] registered; then its initialize
    action raised; then, instead, it succeeded and a second one raised. *)
Definition store_registered : store :=
  run repr_plain registry0 [register_iceberg] store0.
Definition store_failed : store :=
  run repr_plain registry0 [Initialize "iceberg" (Raise (Exception "boom"))]
      store_registered.
Definition store_reinitialized : store :=
  run repr_plain registry0
      [Initialize "iceberg" (Ok ()); Initialize "iceberg" (Raise (Exception "boom"))]
      store_registered.

(** The task awaiting [iceberg]'s action was cancelled. *)
Definition cancelled : exn := BaseException "CancelledError".

(** A plugin whose class defines [__len__] and reports no tables: the object
    is falsy. *)
Definition hollow : Plugin :=
  {| plugin_id := "hollow";
     plugin_name := "Hollow";
     plugin_version := "0.1.0";
     plugin_truthy := false;
     plugin_mro := plugin_mro iceberg |}.

Definition store_hollow : store :=
  run repr_plain registry0 [Register hollow compatible (Ok success)] store0.

(** A caller's [registry.metadata[id].format.status = s]. *)
Definition caller_sets_status (self : PluginRegistry) (id : string) (s : PluginStatus)
    : M unit :=
  view ← metadata self;
  refs ← read (λ σ, meta_dict σ view);
  record ← await (Dict.getitem refs id);
  set_status record s.

(** ** The properties the specification states of a registry *)

(** [active_formats] holds exactly the ids whose status is [ACTIVE], each once. *)
Definition active_formats_exact (σ : store) (self : PluginRegistry) : Prop :=
  NoDup (active_of σ self)
  ∧ ∀ id, id ∈ active_of σ self ↔ status_of σ self id = Some ACTIVE.

(** What a caller can observe of the registry's three containers. *)
Definition registry_view (σ : store) (self : PluginRegistry)
    : list (string * Plugin) * list (string * option PluginMetadata) * list string :=
  (plugins_of σ self, metadata_view σ self, active_of σ self).

(** A call that is a successful [initialize] or [shutdown] action of [id]. *)
Definition succeeds_on (id : string) (c : call) : bool :=
  match c with
  | Initialize id' (Ok _) | Shutdown id' (Ok _) => bool_decide (id' = id)
  | _ => false
  end.

(** A call in which the [initialize] action of [id] raised outside
    [Exception]. *)
Definition interrupted_on (id : string) (c : call) : bool :=
  match c with
  | Initialize id' (Raise e) => bool_decide (id' = id) && negb (is_exception e)
  | _ => false
  end.

(** No requirement recorded in the graph has an empty version string. *)
Definition versions_nonempty (graph : list (string * gset (string * string))) : Prop :=
  ∀ name requirements r, (name, requirements) ∈ graph → r ∈ requirements → r.2 ≠ "".

(** ** base.py: BaseTableFormatPlugin *)

Record DiagnosticResult := {
  diag_status : PluginStatus;
  diag_details : list (string * string);
  diag_timestamp : Z }.

Module BaseTableFormatPlugin.
Record t := {
  _id : string;
  _name : string;
  _version : string;
  _status : PluginStatus }.

(** [__init__] *)
Definition init (plugin_id name version : string) : t :=
  {| _id := plugin_id; _name := name; _version := version; _status := REGISTERED |}.

(** The properties [id], [name], [version] and [get_status]. *)
Definition id (self : t) : string := _id self.
Definition name (self : t) : string := _name self.
Definition version (self : t) : string := _version self.
Definition get_status (self : t) : PluginStatus := _status self.

(** [validate_dependencies]: calls the subclass's [get_dependencies], whose
    outcome is [get_dependencies], and returns a valid result. *)
Definition validate_dependencies (self : t)
    (get_dependencies : exc (list DependencySpec)) : exc ValidationResult :=
  match get_dependencies with
  | Ok dependencies => Ok success
  | Raise e => Raise e
  end.

(** [check_version_compatibility] *)
Definition check_version_compatibility (self : t) (other_plugins : list Plugin)
    : exc CompatibilityResult :=
  Ok {| is_compatible := true; conflicts := [] |}.

(** [run_diagnostics]; [now] is the reading of the clock that stamps the
    result. *)
Definition run_diagnostics (self : t) (now : Z) : DiagnosticResult :=
  {| diag_status := get_status self;
     diag_details := [("plugin_id", id self); ("version", version self)];
     diag_timestamp := now |}.

(** The instance as the registry reads it; [mro] is the MRO of its class and
    [truthy] its truth value, which a subclass decides: the base class defines
    neither [__bool__] nor [__len__]. *)
Definition as_plugin (self : t) (mro : list PyClass) (truthy : bool) : Plugin :=
  {| plugin_id := id self; plugin_name := name self;
     plugin_version := version self; plugin_truthy := truthy; plugin_mro := mro |}.
End BaseTableFormatPlugin.

(** ** Further observations of a registry *)

(** The record [register_plugin] builds for [plugin]. *)
Definition metadata_for (plugin : Plugin) : PluginMetadata :=
  {| pm_id := plugin_id plugin;
     pm_name := plugin_name plugin;
     pm_version := plugin_version plugin;
     pm_format := {| tf_name := plugin_name plugin;
                     tf_version := plugin_version plugin;
                     tf_dependencies := [];
                     tf_enabled := true;
                     tf_status := REGISTERED |};
     pm_interfaces := _get_implemented_interfaces plugin;
     pm_dependencies := [] |}.

(** The plugin id a call is about. *)
Definition target (c : call) : string :=
  match c with
  | Register plugin _ _ => plugin_id plugin
  | Initialize id _ | Shutdown id _ => id
  end.

(** The plugin's action returned. *)
Definition returned {A} (outcome : exc A) : bool :=
  match outcome with Ok _ => true | Raise _ => false end.

(** ** What validation and resolution are expected to collect *)

(** An error without its timestamp. *)
Definition error_header (e : ErrorResponse)
    : string * string * string * list (string * ctx_value) :=
  (code e, component e, message e, context e).

Section Findings.
Context `{Packaging, Runtime}.

(** The errors one item of a dependency map is answerable for, given that the
    installed version is always 0.0.0. *)
Definition item_errors (plugin_metadata : PluginMetadata)
    (item : string * DependencySpec)
    : list (string * string * string * list (string * ctx_value)) :=
  let '(dep_name, dep_spec) := item in
  if decide (dep_scope dep_spec = TEST) then []
  else match Requirement (dep_name +:+ dep_version dep_spec) with
       | Raise e =>
           [("DEP003", pm_id plugin_metadata,
             "Error validating dependency " +:+ dep_name,
             [("operation", CtxStr "dependency_validation");
              ("dependency", CtxStr dep_name);
              ("error", CtxStr (str_exn e))])]
       | Ok req =>
           if specifier_contains req version_0_0_0 then []
           else if decide (dep_type dep_spec = REQUIRED) then
             [("DEP002", pm_id plugin_metadata,
               "Incompatible version for " +:+ dep_name,
               [("operation", CtxStr "dependency_validation");
                ("dependency", CtxStr dep_name);
                ("required_version", CtxStr (dep_version dep_spec));
                ("found_version", CtxStr (str_Version version_0_0_0))])]
           else []
       end.

(** Likewise the warnings. *)
Definition item_warnings (item : string * DependencySpec) : list string :=
  let '(dep_name, dep_spec) := item in
  if decide (dep_scope dep_spec = TEST) then []
  else match Requirement (dep_name +:+ dep_version dep_spec) with
       | Raise e => []
       | Ok req =>
           if specifier_contains req version_0_0_0 then []
           else if decide (dep_type dep_spec = REQUIRED) then []
           else [mismatch_warning dep_name version_0_0_0 dep_spec]
       end.

(** An item that costs the plugin nothing: test scope, or a requirement that
    parses and that 0.0.0 meets or that is optional. *)
Definition item_passes (item : string * DependencySpec) : bool :=
  let '(dep_name, dep_spec) := item in
  if decide (dep_scope dep_spec = TEST) then true
  else match Requirement (dep_name +:+ dep_version dep_spec) with
       | Raise e => false
       | Ok req =>
           specifier_contains req version_0_0_0
           || negb (bool_decide (dep_type dep_spec = REQUIRED))
       end.

(** The [DEP004] error a group of requirements is answerable for: one when the
    group has two or more pairs and the pair iterated first has an empty
    version string. *)
Definition group_errors (item : string * gset (string * string))
    : list (string * string * string * list (string * ctx_value)) :=
  let '(dep_name, requirements) := item in
  if bool_decide (1 < size requirements)
     && bool_decide ((snd <$> head (set_iter requirements)) = Some "")
  then [("DEP004", "dependency_resolver",
         "Incompatible version requirements for " +:+ dep_name,
         [("operation", CtxStr "dependency_resolution");
          ("dependency", CtxStr dep_name);
          ("requirements", CtxPairs (set_iter requirements))])]
  else [].

(** [validate_dependencies] answers for [plugin_metadata] from its cache: there
    is an entry under the plugin's key, and the clock as the call reads it is
    less than the TTL past the entry's stamp. *)
Definition served_from_cache (plugin_metadata : PluginMetadata) (w : World) : bool :=
  match _validation_cache (manager w)
          !! (pm_id plugin_metadata, pm_version plugin_metadata) with
  | Some (_, timestamp) =>
      bool_decide (utcnow_at (clock_reads w) - timestamp
                   < cache_ttl (_config (manager w)))%Z
  | None => false
  end.
End Findings.

(** [name] is required with the pair [r] in [graph]. *)
Definition requires (graph : list (string * gset (string * string)))
    (name : string) (r : string * string) : Prop :=
  ∃ requirements, Dict.get graph name = Some requirements ∧ r ∈ requirements.

(** ** A base-class plugin for the examples *)

Definition delta : BaseTableFormatPlugin.t :=
  BaseTableFormatPlugin.init "delta" "Delta Lake" "3.0.0".

Definition delta_plugin : Plugin :=
  BaseTableFormatPlugin.as_plugin delta
    [ {| cls_name := "DeltaPlugin"; cls_is_object := false;
         cls_has_abstractmethods := true |};
      {| cls_name := "BaseTableFormatPlugin"; cls_is_object := false;
         cls_has_abstractmethods := true |};
      {| cls_name := "ITableFormatPlugin"; cls_is_object := false;
         cls_has_abstractmethods := true |};
      {| cls_name := "ABC"; cls_is_object := false; cls_has_abstractmethods := true |};
      {| cls_name := "object"; cls_is_object := true;
         cls_has_abstractmethods := false |} ]
    true.

(** ** More plugins for the examples *)

Module Samples.
(** An optional run-time dependency whose requirement does not parse. *)
Definition optional_malformed : PluginMetadata :=
  {| pm_id := "hudi"; pm_name := "Apache Hudi"; pm_version := "0.14.0";
     pm_format := {| tf_name := "Apache Hudi"; tf_version := "0.14.0";
                     tf_dependencies := []; tf_enabled := true;
                     tf_status := REGISTERED |};
     pm_interfaces := [];
     pm_dependencies :=
       [("pyarrow", {| dep_name := "pyarrow"; dep_version := ">=latest";
                       dep_type := OPTIONAL; dep_scope := RUNTIME |})] |}.

(** Only a test-scope dependency. *)
Definition test_only : PluginMetadata :=
  {| pm_id := "paimon"; pm_name := "Apache Paimon"; pm_version := "0.5.0";
     pm_format := {| tf_name := "Apache Paimon"; tf_version := "0.5.0";
                     tf_dependencies := []; tf_enabled := true;
                     tf_status := REGISTERED |};
     pm_interfaces := [];
     pm_dependencies :=
       [("pytest", {| dep_name := "pytest"; dep_version := ">=6.0.0";
                      dep_type := REQUIRED; dep_scope := TEST |})] |}.

(** The test plugin of [Demo] with its dependency map still empty: the same id
    and version, hence the same cache key. *)
Definition test_plugin_bare : PluginMetadata :=
  {| pm_id := "test-plugin"; pm_name := "Test Plugin"; pm_version := "1.0.0";
     pm_format := {| tf_name := "Test Plugin"; tf_version := "1.0.0";
                     tf_dependencies := []; tf_enabled := true;
                     tf_status := REGISTERED |};
     pm_interfaces := [];
     pm_dependencies := [] |}.
End Samples.

(** * Proofs *)

(** ** Facts about dicts *)

Module DictFacts.
Section DictFacts.
Context {V : Type}.
Implicit Types (d : list (string * V)) (k : string) (v : V).
Import Dict.

Lemma get_set_eq d k v : get (set d k v) k = Some v.
Proof.
induction d as [|[k' v'] d IH]; simpl.
- by rewrite decide_True.
- destruct (decide (k' = k)) as [->|Hne]; simpl.
  + by rewrite decide_True.
  + by rewrite decide_False.
Qed.

Lemma get_set_ne d k k' v : k ≠ k' → get (set d k v) k' = get d k'.
Proof.
intros Hne. induction d as [|[k0 v0] d IH]; simpl.
- by rewrite decide_False.
- destruct (decide (k0 = k)) as [->|Hne0]; simpl.
  + by rewrite !decide_False.
  + by rewrite IH.
Qed.

Lemma get_Some_elem_of d k v : get d k = Some v → (k, v) ∈ d.
Proof.
induction d as [|[k0 v0] d IH]; simpl; [done|].
destruct (decide (k0 = k)) as [->|Hne].
- intros [= ->]. apply list_elem_of_here.
- intros H. apply list_elem_of_further. auto.
Qed.

Lemma get_None_keys d k : get d k = None ↔ k ∉ keys d.
Proof.
unfold keys. induction d as [|[k0 v0] d IH]; simpl.
- split; [intros _; apply not_elem_of_nil | done].
- rewrite not_elem_of_cons. destruct (decide (k0 = k)) as [->|Hne].
  + split; [done | intros [? _]; done].
  + rewrite IH. split; [intros ?; split; [congruence | done] | intros [_ ?]; done].
Qed.

Lemma get_is_Some_keys d k : is_Some (get d k) ↔ k ∈ keys d.
Proof.
destruct (get d k) eqn:E.
- split; [intros _ | eauto].
  destruct (decide (k ∈ keys d)) as [|Hn]; [done|].
  apply get_None_keys in Hn. congruence.
- split; [intros [? ?]; done |].
  intros Hin. apply get_None_keys in E. done.
Qed.

Lemma keys_set_new d k v : get d k = None → keys (set d k v) = keys d ++ [k].
Proof.
unfold keys. induction d as [|[k0 v0] d IH]; simpl; [done|].
destruct (decide (k0 = k)) as [->|Hne]; [done|].
intros H. simpl. f_equal. by apply IH.
Qed.

Lemma keys_set_old d k v : is_Some (get d k) → keys (set d k v) = keys d.
Proof.
unfold keys. induction d as [|[k0 v0] d IH]; simpl.
- intros [? ?]; done.
- destruct (decide (k0 = k)) as [->|Hne]; [done|].
  intros H. simpl. f_equal. by apply IH.
Qed.

Lemma elem_of_set d k v k' v' :
(k', v') ∈ set d k v → (k', v') = (k, v) ∨ (k', v') ∈ d.
Proof.
induction d as [|[k0 v0] d IH]; simpl.
- rewrite list_elem_of_singleton. auto.
- destruct (decide (k0 = k)) as [->|Hne].
  + rewrite !elem_of_cons. intros [?|?]; auto.
  + rewrite !elem_of_cons. intros [?|?]; [auto|].
    destruct IH as [?|?]; auto.
Qed.
End DictFacts.
End DictFacts.

(** ** Store lemmas *)

Lemma plugin_dict_insert (σ : store) l o l' :
  plugin_dict (<[l:=o]> σ) l' =
  if decide (l = l') then match o with PluginDict d => d | _ => [] end
  else plugin_dict σ l'.
Proof. unfold plugin_dict. rewrite lookup_insert. by case_decide. Qed.

Lemma meta_dict_insert (σ : store) l o l' :
  meta_dict (<[l:=o]> σ) l' =
  if decide (l = l') then match o with MetaDict d => d | _ => [] end
  else meta_dict σ l'.
Proof. unfold meta_dict. rewrite lookup_insert. by case_decide. Qed.

Lemma str_list_insert (σ : store) l o l' :
  str_list (<[l:=o]> σ) l' =
  if decide (l = l') then match o with StrList d => d | _ => [] end
  else str_list σ l'.
Proof. unfold str_list. rewrite lookup_insert. by case_decide. Qed.

Lemma meta_obj_insert (σ : store) l o l' :
  meta_obj (<[l:=o]> σ) l' =
  if decide (l = l') then match o with MetaObj m => Some m | _ => None end
  else meta_obj σ l'.
Proof. unfold meta_obj. rewrite lookup_insert. by case_decide. Qed.

Lemma meta_obj_Some (σ : store) l m : meta_obj σ l = Some m ↔ σ !! l = Some (MetaObj m).
Proof.
  unfold meta_obj. destruct (σ !! l) as [[]|]; split; intros; simplify_eq; done.
Qed.

Lemma fresh_lookup (σ : store) : σ !! fresh (dom σ) = None.
Proof. apply not_elem_of_dom, is_fresh. Qed.

Lemma list_remove_not_in x l : x ∉ l → list_remove x l = l.
Proof.
  induction l as [|y l IH]; simpl; [done|].
  rewrite not_elem_of_cons. intros [Hne Hni].
  rewrite decide_False by congruence. by rewrite IH.
Qed.

Lemma elem_of_list_remove x y l : y ∈ list_remove x l → y ∈ l.
Proof.
  induction l as [|z l IH]; simpl; [done|].
  destruct (decide (z = x)) as [->|Hne].
  - apply list_elem_of_further.
  - rewrite !elem_of_cons. intros [?|?]; auto.
Qed.

Lemma elem_of_list_remove_ne x y l : x ≠ y → y ∈ l → y ∈ list_remove x l.
Proof.
  intros Hne. induction l as [|z l IH]; simpl; [done|].
  rewrite elem_of_cons. destruct (decide (z = x)) as [->|Hzx].
  - intros [?|?]; [congruence | done].
  - rewrite elem_of_cons. intros [?|?]; auto.
Qed.

Lemma NoDup_list_remove x l : NoDup l → NoDup (list_remove x l) ∧ x ∉ list_remove x l.
Proof.
  induction 1 as [|y l Hy Hnd IH]; simpl.
  - split; [constructor | apply not_elem_of_nil].
  - destruct (decide (y = x)) as [->|Hne]; [done|].
    destruct IH as [IH1 IH2]. split.
    + constructor; [|done]. intros Hin. apply Hy. by eapply elem_of_list_remove.
    + rewrite not_elem_of_cons. split; [congruence | done].
Qed.

(** ** What one update of the store does to the registry's observations *)

Section StoreUpdates.
Context (σ : store) (self : PluginRegistry) (Hwf : wf σ self).

Lemma wf_meta_loc l m :
  meta_obj σ l = Some m →
  l ≠ _plugins self ∧ l ≠ _metadata self ∧ l ≠ _active_formats self.
Proof.
  intros Hm%meta_obj_Some. destruct Hwf as [Hp Hmd Ha _ _ _].
  repeat split; intros ->; congruence.
Qed.

Lemma wf_distinct :
  _plugins self ≠ _metadata self ∧ _plugins self ≠ _active_formats self
  ∧ _metadata self ≠ _active_formats self.
Proof.
  destruct Hwf as [Hp Hmd Ha _ _ _].
  repeat split; intros E; rewrite E in *; congruence.
Qed.

Lemma wf_get_live id l :
  Dict.get (metadata_refs σ self) id = Some l → is_Some (meta_obj σ l).
Proof. intros Hl%DictFacts.get_Some_elem_of. by eapply (wf_refs _ _ Hwf). Qed.

Lemma wf_registered_meta id :
  registered σ self id →
  ∃ l m, Dict.get (metadata_refs σ self) id = Some l ∧ meta_obj σ l = Some m.
Proof.
  unfold registered. rewrite DictFacts.get_is_Some_keys, (wf_keys _ _ Hwf).
  rewrite <-DictFacts.get_is_Some_keys. intros [l Hl].
  destruct (wf_get_live _ _ Hl) as [m Hm]. eauto.
Qed.

Lemma wf_registered_iff id :
  registered σ self id ↔ is_Some (Dict.get (metadata_refs σ self) id).
Proof.
  unfold registered. by rewrite !DictFacts.get_is_Some_keys, (wf_keys _ _ Hwf).
Qed.

(** Overwriting the status of the record of [id]. *)
Section SetStatus.
Context (id : string) (l : loc) (m : PluginMetadata) (s : PluginStatus).
Context (Hl : Dict.get (metadata_refs σ self) id = Some l).
Context (Hm : meta_obj σ l = Some m).

Let σ' : store := <[l:=MetaObj (set_format_status s m)]> σ.

Lemma set_status_plugins_of : plugins_of σ' self = plugins_of σ self.
Proof.
  destruct (wf_meta_loc _ _ Hm) as (? & ? & ?).
  unfold plugins_of, σ'. rewrite plugin_dict_insert. by rewrite decide_False.
Qed.

Lemma set_status_metadata_refs : metadata_refs σ' self = metadata_refs σ self.
Proof.
  destruct (wf_meta_loc _ _ Hm) as (? & ? & ?).
  unfold metadata_refs, σ'. rewrite meta_dict_insert. by rewrite decide_False.
Qed.

Lemma set_status_active_of : active_of σ' self = active_of σ self.
Proof.
  destruct (wf_meta_loc _ _ Hm) as (? & ? & ?).
  unfold active_of, σ'. rewrite str_list_insert. by rewrite decide_False.
Qed.

Lemma set_status_status_of id' :
  status_of σ' self id' =
  if decide (id' = id) then Some s else status_of σ self id'.
Proof.
  unfold status_of, metadata_of. rewrite set_status_metadata_refs.
  destruct (decide (id' = id)) as [->|Hne].
  - rewrite Hl. simpl. unfold σ'. rewrite meta_obj_insert, decide_True by done. done.
  - destruct (Dict.get (metadata_refs σ self) id') as [l'|] eqn:Hl'; [|done].
    simpl. unfold σ'. rewrite meta_obj_insert.
    rewrite decide_False; [done|].
    intros <-. apply Hne. by eapply (wf_inj _ _ Hwf).
Qed.

Lemma set_status_wf : wf σ' self.
Proof.
  destruct (wf_meta_loc _ _ Hm) as (Hn1 & Hn2 & Hn3).
  split.
  - rewrite set_status_plugins_of. unfold σ'.
    rewrite lookup_insert_ne by done. apply Hwf.
  - rewrite set_status_metadata_refs. unfold σ'.
    rewrite lookup_insert_ne by done. apply Hwf.
  - rewrite set_status_active_of. unfold σ'.
    rewrite lookup_insert_ne by done. apply Hwf.
  - rewrite set_status_plugins_of, set_status_metadata_refs. apply Hwf.
  - rewrite set_status_metadata_refs. intros id' l' Hl'.
    unfold σ'. rewrite meta_obj_insert. case_decide; [eauto|].
    by eapply (wf_refs _ _ Hwf).
  - rewrite set_status_metadata_refs. apply Hwf.
Qed.
End SetStatus.

(** Overwriting the active list. *)
Section SetActive.
Context (xs : list string).

Let σ' : store := <[_active_formats self:=StrList xs]> σ.

Lemma set_active_plugins_of : plugins_of σ' self = plugins_of σ self.
Proof.
  destruct wf_distinct as (? & ? & ?).
  unfold plugins_of, σ'. rewrite plugin_dict_insert. by rewrite decide_False.
Qed.

Lemma set_active_metadata_refs : metadata_refs σ' self = metadata_refs σ self.
Proof.
  destruct wf_distinct as (? & ? & ?).
  unfold metadata_refs, σ'. rewrite meta_dict_insert. by rewrite decide_False.
Qed.

Lemma set_active_active_of : active_of σ' self = xs.
Proof. unfold active_of, σ'. rewrite str_list_insert. by rewrite decide_True. Qed.

Lemma set_active_meta_obj l : meta_obj σ' l = meta_obj σ l.
Proof.
  unfold σ'. rewrite meta_obj_insert. case_decide as E; [|done].
  subst l. unfold meta_obj. by rewrite (wf_active _ _ Hwf).
Qed.

Lemma set_active_status_of id : status_of σ' self id = status_of σ self id.
Proof.
  unfold status_of, metadata_of. rewrite set_active_metadata_refs.
  destruct (Dict.get _ id); simpl; [|done]. by rewrite set_active_meta_obj.
Qed.

Lemma set_active_wf : wf σ' self.
Proof.
  destruct wf_distinct as (Hn1 & Hn2 & Hn3).
  split.
  - rewrite set_active_plugins_of. unfold σ'.
    rewrite lookup_insert_ne by done. apply Hwf.
  - rewrite set_active_metadata_refs. unfold σ'.
    rewrite lookup_insert_ne by done. apply Hwf.
  - rewrite set_active_active_of. unfold σ'. by rewrite lookup_insert_eq.
  - rewrite set_active_plugins_of, set_active_metadata_refs. apply Hwf.
  - rewrite set_active_metadata_refs. intros id l Hl.
    rewrite set_active_meta_obj. by eapply (wf_refs _ _ Hwf).
  - rewrite set_active_metadata_refs. apply Hwf.
Qed.
End SetActive.
End StoreUpdates.

(** ** The three registry methods, as equations on the store *)

Ltac unfold_M :=
  cbv [mbind mret ST_bind ST_ret bind ret raise read write await try_except set_status].

Section Methods.
Variable repr_conflicts : list (list (string * string)) → string.

Lemma register_plugin_registered σ self plugin compat deps :
  registered σ self (plugin_id plugin) →
  register_plugin repr_conflicts self plugin compat deps σ =
  (Ok (failure ["Plugin " +:+ plugin_id plugin +:+ " is already registered"]), σ).
Proof.
  intros Hreg. unfold register_plugin. unfold_M.
  unfold Dict.contains. by rewrite bool_decide_eq_true_2.
Qed.

Lemma register_plugin_unregistered σ self plugin compat deps :
  ¬ registered σ self (plugin_id plugin) →
  register_plugin repr_conflicts self plugin compat deps σ =
  match compat (Dict.values (plugins_of σ self)) with
  | Raise e => (Raise e, σ)
  | Ok c =>
      if negb (is_compatible c) then
        (Ok (failure ["Version compatibility check failed: "
                      +:+ repr_conflicts (conflicts c)]), σ)
      else match deps with
           | Raise e => (Raise e, σ)
           | Ok d =>
               if negb (is_valid d) then (Ok (failure (errors d)), σ)
               else (Ok success, enrolled self plugin σ)
           end
  end.
Proof.
  intros Hreg. unfold register_plugin. unfold_M.
  unfold Dict.contains. rewrite bool_decide_eq_false_2 by done.
  unfold plugins_of. destruct (compat _) as [c|e]; [|done].
  destruct (negb (is_compatible c)); [done|].
  destruct deps as [d|e]; [|done].
  by destruct (negb (is_valid d)).
Qed.

Lemma operable_iff σ self id :
  operable σ self id ↔
  ∃ p, Dict.get (plugins_of σ self) id = Some p ∧ plugin_truthy p = true.
Proof.
  unfold operable, falsy. destruct (Dict.get _ id) as [p|].
  - rewrite negb_false_iff. split; [by exists p|]. by intros (? & [= <-] & ?).
  - split; [done|]. by intros (? & ? & ?).
Qed.

Lemma operable_registered σ self id : operable σ self id → registered σ self id.
Proof. intros (p & Hp & _)%operable_iff. by exists p. Qed.

Lemma initialize_plugin_inoperable σ self id initialize :
  ¬ operable σ self id →
  initialize_plugin self id initialize σ =
  (Ok (failure ["Plugin " +:+ id +:+ " not found"]), σ).
Proof.
  intros Hop. unfold initialize_plugin. unfold_M.
  unfold operable, plugins_of in Hop. by destruct (falsy _).
Qed.

Lemma initialize_plugin_unregistered σ self id initialize :
  ¬ registered σ self id →
  initialize_plugin self id initialize σ =
  (Ok (failure ["Plugin " +:+ id +:+ " not found"]), σ).
Proof.
  intros Hreg. apply initialize_plugin_inoperable.
  by intros ?%operable_registered.
Qed.

Lemma shutdown_plugin_inoperable σ self id shutdown :
  ¬ operable σ self id →
  shutdown_plugin self id shutdown σ =
  (Ok (failure ["Plugin " +:+ id +:+ " not found"]), σ).
Proof.
  intros Hop. unfold shutdown_plugin. unfold_M.
  unfold operable, plugins_of in Hop. by destruct (falsy _).
Qed.

Lemma shutdown_plugin_unregistered σ self id shutdown :
  ¬ registered σ self id →
  shutdown_plugin self id shutdown σ =
  (Ok (failure ["Plugin " +:+ id +:+ " not found"]), σ).
Proof.
  intros Hreg. apply shutdown_plugin_inoperable.
  by intros ?%operable_registered.
Qed.

(** A raising [shutdown] action: the handler answers for an [Exception],
    anything else goes through; the store is as it was either way. *)
Lemma shutdown_plugin_raise σ self id e :
  operable σ self id →
  shutdown_plugin self id (Raise e) σ =
  (if is_exception e
   then Ok (failure ["Failed to shutdown plugin " +:+ id +:+ ": " +:+ str_exn e])
   else Raise e, σ).
Proof.
  intros Hop. unfold shutdown_plugin. unfold_M.
  unfold operable, plugins_of in Hop. rewrite Hop.
  by destruct (is_exception e).
Qed.

Section Registered.
Context (σ : store) (self : PluginRegistry) (Hwf : wf σ self).
Context (id : string) (l : loc) (m : PluginMetadata).
Context (Hreg : operable σ self id).
Context (Hl : Dict.get (metadata_refs σ self) id = Some l).
Context (Hm : meta_obj σ l = Some m).

(** A raising [initialize] action: the handler records [ERROR] for an
    [Exception]; anything else goes through and the record keeps the
    [INITIALIZING] written before the [await]. *)
Lemma initialize_plugin_raise e :
  initialize_plugin self id (Raise e) σ =
  (if is_exception e
   then Ok (failure ["Failed to initialize plugin " +:+ id +:+ ": " +:+ str_exn e])
   else Raise e,
   <[l:=MetaObj (set_format_status (if is_exception e then ERROR else INITIALIZING) m)]> σ).
Proof.
  unfold initialize_plugin. unfold_M.
  unfold operable, plugins_of in Hreg. rewrite Hreg.
  unfold Dict.getitem. unfold metadata_refs in Hl. rewrite Hl, Hm.
  destruct (is_exception e); [|done].
  rewrite meta_obj_insert, decide_True by done.
  by rewrite insert_insert_eq.
Qed.

Lemma initialize_plugin_ok :
  initialize_plugin self id (Ok ()) σ =
  (Ok success,
   let σ1 := <[l:=MetaObj (set_format_status ACTIVE m)]> σ in
   if bool_decide (id ∈ active_of σ self) then σ1
   else <[_active_formats self:=StrList (active_of σ self ++ [id])]> σ1).
Proof.
  unfold initialize_plugin. unfold_M.
  unfold operable, plugins_of in Hreg. rewrite Hreg.
  unfold Dict.getitem. unfold metadata_refs in Hl. rewrite Hl, Hm.
  rewrite meta_obj_insert, decide_True by done.
  rewrite insert_insert_eq.
  change (<[l:=MetaObj (set_format_status ACTIVE (set_format_status INITIALIZING m))]> σ)
    with (<[l:=MetaObj (set_format_status ACTIVE m)]> σ).
  pose proof (set_status_active_of σ self Hwf l m ACTIVE Hm) as Ha.
  unfold active_of in *. rewrite Ha.
  by destruct (bool_decide _).
Qed.

Lemma shutdown_plugin_ok :
  shutdown_plugin self id (Ok ()) σ =
  (Ok success,
   let σ1 := <[l:=MetaObj (set_format_status REGISTERED m)]> σ in
   if bool_decide (id ∈ active_of σ self)
   then <[_active_formats self:=StrList (list_remove id (active_of σ self))]> σ1
   else σ1).
Proof.
  unfold shutdown_plugin. unfold_M.
  unfold operable, plugins_of in Hreg. rewrite Hreg.
  unfold Dict.getitem. unfold metadata_refs in Hl. rewrite Hl, Hm.
  pose proof (set_status_active_of σ self Hwf l m REGISTERED Hm) as Ha.
  unfold active_of in *. rewrite Ha.
  by destruct (bool_decide _).
Qed.
End Registered.
End Methods.

(** ** Admission and construction keep the store well formed *)

Section Enrolled.
Context (σ : store) (self : PluginRegistry) (Hwf : wf σ self).
Context (plugin : Plugin) (Hnew : ¬ registered σ self (plugin_id plugin)).

Let l : loc := fresh (dom σ).

Lemma enrolled_fresh_neq :
  l ≠ _plugins self ∧ l ≠ _metadata self ∧ l ≠ _active_formats self.
Proof.
  pose proof (fresh_lookup σ) as Hf. fold l in Hf.
  destruct Hwf as [Hp Hmd Ha _ _ _].
  repeat split; intros E; rewrite E in Hf; congruence.
Qed.

Lemma enrolled_plugins_of :
  plugins_of (enrolled self plugin σ) self =
  Dict.set (plugins_of σ self) (plugin_id plugin) plugin.
Proof.
  destruct enrolled_fresh_neq as (? & ? & ?).
  destruct (wf_distinct σ self Hwf) as (? & ? & ?).
  unfold plugins_of, enrolled. fold l.
  rewrite !plugin_dict_insert.
  rewrite (decide_False (P := _metadata self = _plugins self)) by done.
  rewrite decide_True by done. by rewrite decide_False.
Qed.

Lemma enrolled_metadata_refs :
  metadata_refs (enrolled self plugin σ) self =
  Dict.set (metadata_refs σ self) (plugin_id plugin) l.
Proof.
  destruct enrolled_fresh_neq as (? & ? & ?).
  destruct (wf_distinct σ self Hwf) as (? & ? & ?).
  unfold metadata_refs, enrolled. fold l.
  rewrite !meta_dict_insert.
  rewrite decide_True by done.
  rewrite (decide_False (P := _plugins self = _metadata self)) by done.
  by rewrite decide_False.
Qed.

Lemma enrolled_active_of :
  active_of (enrolled self plugin σ) self = active_of σ self.
Proof.
  destruct enrolled_fresh_neq as (? & ? & ?).
  destruct (wf_distinct σ self Hwf) as (? & ? & ?).
  unfold active_of, enrolled. fold l.
  rewrite !str_list_insert. by rewrite !decide_False.
Qed.

Lemma enrolled_meta_obj_fresh :
  ∃ m, meta_obj (enrolled self plugin σ) l = Some m
       ∧ tf_status (pm_format m) = REGISTERED ∧ pm_id m = plugin_id plugin.
Proof.
  destruct enrolled_fresh_neq as (? & ? & ?).
  unfold enrolled. fold l. eexists.
  rewrite !meta_obj_insert.
  rewrite !(decide_False (P := _ self = l)) by done.
  rewrite decide_True by done. done.
Qed.

Lemma enrolled_meta_obj_old l' :
  is_Some (meta_obj σ l') →
  meta_obj (enrolled self plugin σ) l' = meta_obj σ l'.
Proof.
  intros [m Hm].
  destruct (wf_meta_loc σ self Hwf _ _ Hm) as (? & ? & ?).
  assert (l ≠ l').
  { intros <-. apply meta_obj_Some in Hm. unfold l in Hm.
    rewrite fresh_lookup in Hm. done. }
  unfold enrolled. fold l. rewrite !meta_obj_insert. by rewrite !decide_False.
Qed.

Lemma enrolled_no_ref id' : Dict.get (metadata_refs σ self) id' ≠ Some l.
Proof.
  intros Hl. destruct (wf_get_live σ self Hwf _ _ Hl) as [m Hm%meta_obj_Some].
  unfold l in Hm. rewrite fresh_lookup in Hm. done.
Qed.

Lemma enrolled_status_of id' :
  status_of (enrolled self plugin σ) self id' =
  if decide (id' = plugin_id plugin) then Some REGISTERED else status_of σ self id'.
Proof.
  unfold status_of, metadata_of. rewrite enrolled_metadata_refs.
  destruct (decide (id' = plugin_id plugin)) as [->|Hne].
  - rewrite DictFacts.get_set_eq. simpl.
    destruct enrolled_meta_obj_fresh as (m & -> & Hs & _). simpl. by rewrite Hs.
  - rewrite DictFacts.get_set_ne by done.
    destruct (Dict.get (metadata_refs σ self) id') as [l'|] eqn:Hl'; [|done].
    simpl. rewrite enrolled_meta_obj_old; [done|]. by eapply (wf_get_live σ self Hwf).
Qed.

Lemma enrolled_wf : wf (enrolled self plugin σ) self.
Proof.
  destruct enrolled_fresh_neq as (? & ? & ?).
  destruct (wf_distinct σ self Hwf) as (? & ? & ?).
  assert (Dict.get (metadata_refs σ self) (plugin_id plugin) = None) as Hnone.
  { apply eq_None_not_Some. by rewrite <-(wf_registered_iff σ self Hwf). }
  split.
  - rewrite enrolled_plugins_of. unfold enrolled. fold l.
    rewrite lookup_insert_ne by done. rewrite lookup_insert_eq.
    rewrite plugin_dict_insert. by rewrite decide_False.
  - rewrite enrolled_metadata_refs. unfold enrolled. fold l.
    rewrite lookup_insert_eq. rewrite !meta_dict_insert.
    by rewrite !decide_False.
  - rewrite enrolled_active_of. unfold enrolled. fold l.
    rewrite !lookup_insert_ne by done. apply Hwf.
  - rewrite enrolled_plugins_of, enrolled_metadata_refs.
    rewrite !DictFacts.keys_set_new; [by rewrite (wf_keys _ _ Hwf) | done |].
    apply eq_None_not_Some. exact Hnew.
  - rewrite enrolled_metadata_refs. intros id' l' [[= -> ->]|Hin]%DictFacts.elem_of_set.
    + destruct enrolled_meta_obj_fresh as (m & -> & _). eauto.
    + rewrite enrolled_meta_obj_old; by eapply (wf_refs _ _ Hwf).
  - rewrite enrolled_metadata_refs. intros id1 id2 l'.
    destruct (decide (plugin_id plugin = id1)) as [<-|Hne1];
      destruct (decide (plugin_id plugin = id2)) as [<-|Hne2];
      rewrite ?DictFacts.get_set_eq, ?DictFacts.get_set_ne by done; [done| | |].
    + intros [= <-] Hl'. by apply enrolled_no_ref in Hl'.
    + intros Hl' [= <-]. by apply enrolled_no_ref in Hl'.
    + apply Hwf.
Qed.
End Enrolled.

Lemma PluginRegistry_init_spec σ0 σ self :
  PluginRegistry_init σ0 = (Ok self, σ) →
  wf σ self ∧ plugins_of σ self = [] ∧ metadata_refs σ self = []
  ∧ active_of σ self = [].
Proof.
  unfold PluginRegistry_init. unfold_M. unfold alloc. intros [= <- <-].
  set (p := fresh (dom σ0)).
  set (σ1 := <[p:=PluginDict []]> σ0).
  set (m := fresh (dom σ1)).
  set (σ2 := <[m:=MetaDict []]> σ1).
  set (a := fresh (dom σ2)).
  assert (m ≠ p) as Hmp.
  { intros E. pose proof (fresh_lookup σ1) as Hf. fold m in Hf.
    rewrite E in Hf. unfold σ1 in Hf. by rewrite lookup_insert_eq in Hf. }
  assert (a ≠ m) as Ham.
  { intros E. pose proof (fresh_lookup σ2) as Hf. fold a in Hf.
    rewrite E in Hf. unfold σ2 in Hf. by rewrite lookup_insert_eq in Hf. }
  assert (a ≠ p) as Hap.
  { intros E. pose proof (fresh_lookup σ2) as Hf. fold a in Hf.
    rewrite E in Hf. unfold σ2, σ1 in Hf.
    rewrite lookup_insert_ne, lookup_insert_eq in Hf by done. done. }
  assert (plugins_of (<[a:=StrList []]> σ2) {| _plugins := p; _metadata := m; _active_formats := a |} = []) as E1.
  { unfold plugins_of, σ2, σ1. simpl. rewrite !plugin_dict_insert.
    rewrite !decide_False by done. by rewrite decide_True. }
  assert (metadata_refs (<[a:=StrList []]> σ2) {| _plugins := p; _metadata := m; _active_formats := a |} = []) as E2.
  { unfold metadata_refs, σ2, σ1. simpl. rewrite !meta_dict_insert.
    rewrite decide_False by done. by rewrite decide_True. }
  assert (active_of (<[a:=StrList []]> σ2) {| _plugins := p; _metadata := m; _active_formats := a |} = []) as E3.
  { unfold active_of. simpl. rewrite str_list_insert. by rewrite decide_True. }
  split; [|done]. split; rewrite ?E1, ?E2, ?E3; simpl; try done.
  - unfold σ2, σ1. rewrite !lookup_insert_ne by done. by rewrite lookup_insert_eq.
  - unfold σ2. rewrite lookup_insert_ne by done. by rewrite lookup_insert_eq.
  - by rewrite lookup_insert_eq.
  - by intros id l ?%elem_of_nil.
Qed.

(** ** What one call does to the registry's observations *)

Section Steps.
Variable repr_conflicts : list (list (string * string)) → string.

Abbreviation step := (step repr_conflicts).
Abbreviation run := (run repr_conflicts).
Abbreviation reachable := (reachable repr_conflicts).

Lemma step_spec σ self c :
  wf σ self → wf (step self c σ) self ∧ step_effect σ (step self c σ) self c.
Proof.
  intros Hwf. destruct c as [plugin compat deps|id [[]|e]|id [[]|e]];
    unfold step, do_call, step_effect.
  - (* register *)
    destruct (decide (registered σ self (plugin_id plugin))) as [Hreg|Hreg].
    { rewrite register_plugin_registered by done. simpl. auto. }
    rewrite register_plugin_unregistered by done.
    destruct (compat _) as [c|e]; simpl; [|by auto].
    destruct (negb (is_compatible c)); simpl; [by auto|].
    destruct deps as [d|e]; simpl; [|by auto].
    destruct (negb (is_valid d)); simpl; [by auto|].
    split; [by apply enrolled_wf|].
    split; [by apply enrolled_active_of|]. right.
    split; [done|]. split; [by apply enrolled_plugins_of|].
    intros id'. by apply enrolled_status_of.
  - (* initialize succeeds *)
    destruct (decide (operable σ self id)) as [Hreg|Hreg];
      [|by rewrite initialize_plugin_inoperable].
    destruct (wf_registered_meta σ self Hwf id (operable_registered _ _ _ Hreg))
      as (l & m & Hl & Hm).
    rewrite (initialize_plugin_ok σ self Hwf id l m) by done. simpl.
    pose proof (set_status_wf σ self Hwf l m ACTIVE Hm) as Hwf1.
    pose proof (set_status_plugins_of σ self Hwf l m ACTIVE Hm) as Hp1.
    pose proof (set_status_active_of σ self Hwf l m ACTIVE Hm) as Ha1.
    pose proof (set_status_status_of σ self Hwf id l m ACTIVE Hl Hm) as Hs1.
    destruct (bool_decide (id ∈ active_of σ self)); [done|].
    split; [by apply set_active_wf|].
    rewrite set_active_plugins_of, set_active_active_of by done.
    split; [done|]. split; [done|]. intros id'.
    by rewrite set_active_status_of.
  - (* initialize raises *)
    destruct (decide (operable σ self id)) as [Hreg|Hreg];
      [|by rewrite initialize_plugin_inoperable].
    destruct (wf_registered_meta σ self Hwf id (operable_registered _ _ _ Hreg))
      as (l & m & Hl & Hm).
    rewrite (initialize_plugin_raise σ self id l m) by done. simpl.
    split; [by apply set_status_wf|].
    split; [by apply set_status_plugins_of|].
    split; [by apply set_status_active_of|].
    intros id'. by apply set_status_status_of.
  - (* shutdown succeeds *)
    destruct (decide (operable σ self id)) as [Hreg|Hreg];
      [|by rewrite shutdown_plugin_inoperable].
    destruct (wf_registered_meta σ self Hwf id (operable_registered _ _ _ Hreg))
      as (l & m & Hl & Hm).
    rewrite (shutdown_plugin_ok σ self Hwf id l m) by done. simpl.
    pose proof (set_status_wf σ self Hwf l m REGISTERED Hm) as Hwf1.
    pose proof (set_status_plugins_of σ self Hwf l m REGISTERED Hm) as Hp1.
    pose proof (set_status_active_of σ self Hwf l m REGISTERED Hm) as Ha1.
    pose proof (set_status_status_of σ self Hwf id l m REGISTERED Hl Hm) as Hs1.
    destruct (bool_decide (id ∈ active_of σ self)) eqn:Hin.
    + split; [by apply set_active_wf|].
      rewrite set_active_plugins_of, set_active_active_of by done.
      split; [done|]. split; [done|]. intros id'.
      by rewrite set_active_status_of.
    + apply bool_decide_eq_false in Hin.
      rewrite list_remove_not_in by done. done.
  - (* shutdown raises *)
    destruct (decide (operable σ self id)) as [Hreg|Hreg].
    + by rewrite shutdown_plugin_raise.
    + by rewrite shutdown_plugin_inoperable.
Qed.

Lemma reachable_wf σ self : reachable σ self → wf σ self.
Proof.
  induction 1 as [σ0 σ self Hinit|σ self c _ IH].
  - by apply PluginRegistry_init_spec in Hinit as [? _].
  - by apply step_spec.
Qed.

Lemma run_wf σ self cs : wf σ self → wf (run self cs σ) self.
Proof.
  revert σ. induction cs as [|c cs IH]; intros σ Hwf; simpl; [done|].
  apply IH. by apply step_spec.
Qed.

Lemma run_reachable σ self cs : reachable σ self → reachable (run self cs σ) self.
Proof.
  revert σ. induction cs as [|c cs IH]; intros σ Hr; simpl; [done|].
  apply IH. by constructor.
Qed.

Lemma run_app σ self cs1 cs2 :
  run self (cs1 ++ cs2) σ = run self cs2 (run self cs1 σ).
Proof. unfold run. apply foldl_app. Qed.
End Steps.


(** * The registry and the lifecycle state machine *)

Lemma PluginRegistry_init_empty : PluginRegistry_init ∅ = (Ok registry0, store0).
Proof. reflexivity. Qed.

Section RegistryFacts.
Variable repr_conflicts : list (list (string * string)) → string.

Abbreviation step := (step repr_conflicts).
Abbreviation run := (run repr_conflicts).
Abbreviation reachable := (reachable repr_conflicts).

Lemma status_of_unregistered σ self id :
  wf σ self → ¬ registered σ self id → status_of σ self id = None.
Proof.
  intros Hwf Hreg. unfold status_of, metadata_of.
  rewrite (wf_registered_iff σ self Hwf) in Hreg.
  apply eq_None_not_Some in Hreg. by rewrite Hreg.
Qed.

Lemma status_of_registered σ self id s :
  wf σ self → status_of σ self id = Some s → registered σ self id.
Proof.
  intros Hwf Hs. destruct (decide (registered σ self id)) as [|Hn]; [done|].
  rewrite status_of_unregistered in Hs by done. done.
Qed.

(** A plugin whose status has left [REGISTERED] is one the lifecycle methods
    find: only they write another status, and only for such a plugin. *)
Lemma engaged_operable σ self id s :
  reachable σ self → status_of σ self id = Some s → s ≠ REGISTERED →
  operable σ self id.
Proof.
  intros Hr. revert s.
  induction Hr as [σ0 σ self Hinit|σ self c Hr IH]; intros s Hs Hne.
  - apply PluginRegistry_init_spec in Hinit as (_ & _ & Hrefs & _).
    unfold status_of, metadata_of in Hs. by rewrite Hrefs in Hs.
  - pose proof (reachable_wf _ _ _ Hr) as Hwf.
    destruct (step_spec repr_conflicts σ self c Hwf) as [Hwf' Heff].
    revert Hs.
    destruct c as [plugin compat deps|id0 [[]|e]|id0 [[]|e]]; simpl in Heff.
    + destruct Heff as [_ [->|(Hnew & Hp & Hst)]]; [intros Hs; by apply (IH s)|].
      rewrite Hst. case_decide as Hid; [by intros [= <-]|].
      intros Hs. unfold operable. rewrite Hp, DictFacts.get_set_ne by done.
      by apply (IH s).
    + destruct (decide (operable σ self id0)) as [Hop|Hop];
        [|rewrite Heff; intros Hs; by apply (IH s)].
      destruct Heff as (Hp & _ & Hst). rewrite Hst. unfold operable. rewrite Hp.
      case_decide as Hid; [intros _; subst; exact Hop|].
      intros Hs. by apply (IH s).
    + destruct (decide (operable σ self id0)) as [Hop|Hop];
        [|rewrite Heff; intros Hs; by apply (IH s)].
      destruct Heff as (Hp & _ & Hst). rewrite Hst. unfold operable. rewrite Hp.
      case_decide as Hid; [intros _; subst; exact Hop|].
      intros Hs. by apply (IH s).
    + destruct (decide (operable σ self id0)) as [Hop|Hop];
        [|rewrite Heff; intros Hs; by apply (IH s)].
      destruct Heff as (Hp & _ & Hst). rewrite Hst. unfold operable. rewrite Hp.
      case_decide as Hid; [intros _; subst; exact Hop|].
      intros Hs. by apply (IH s).
    + rewrite Heff. intros Hs. by apply (IH s).
Qed.

(** What the code does keep of the [active_formats] invariant: no id is listed
    twice, every [ACTIVE] id is listed, and a listed id is [ACTIVE], [ERROR],
    or [INITIALIZING] (left by an interrupted [initialize] action). *)
Lemma active_formats_sound σ self :
  reachable σ self →
  NoDup (active_of σ self)
  ∧ ∀ id, (status_of σ self id = Some ACTIVE → id ∈ active_of σ self)
          ∧ (id ∈ active_of σ self →
             status_of σ self id = Some ACTIVE ∨ status_of σ self id = Some ERROR
             ∨ status_of σ self id = Some INITIALIZING).
Proof.
  induction 1 as [σ0 σ self Hinit|σ self c Hr [IHnd IH]].
  - apply PluginRegistry_init_spec in Hinit as (Hwf & _ & Hrefs & Ha).
    rewrite Ha. split; [constructor|]. intros id.
    unfold status_of, metadata_of. rewrite Hrefs. simpl.
    split; [done | by intros ?%elem_of_nil].
  - pose proof (reachable_wf _ _ _ Hr) as Hwf.
    destruct (step_spec repr_conflicts σ self c Hwf) as [Hwf' Heff].
    destruct c as [plugin compat deps|id0 [[]|e]|id0 [[]|e]]; simpl in Heff.
    + destruct Heff as [Ha [->|(Hnew & _ & Hs)]]; [done|].
      rewrite Ha. split; [done|]. intros id. rewrite Hs.
      destruct (decide (id = plugin_id plugin)) as [->|Hne]; [|apply IH].
      split; [done|]. intros Hin. apply IH in Hin.
      rewrite status_of_unregistered in Hin by done. by destruct Hin as [|[|]].
    + destruct (decide (operable σ self id0)) as [Hreg|Hreg];
        [|by rewrite Heff].
      destruct Heff as (_ & Ha & Hs). rewrite Ha. split.
      * case_bool_decide as Hin; [done|].
        apply NoDup_app. split; [done|]. split; [|apply NoDup_singleton].
        intros x Hx ->%list_elem_of_singleton. done.
      * intros id. rewrite Hs.
        destruct (decide (id = id0)) as [->|Hne].
        -- split; [|auto]. intros _. case_bool_decide; [done|].
           apply elem_of_app. right. by apply list_elem_of_singleton.
        -- destruct (IH id) as [IH1 IH2]. split.
           ++ intros Hact%IH1. case_bool_decide; [done|].
              apply elem_of_app. by left.
           ++ intros Hin. apply IH2. case_bool_decide; [done|].
              apply elem_of_app in Hin as [|?%list_elem_of_singleton]; done.
    + destruct (decide (operable σ self id0)) as [Hreg|Hreg];
        [|by rewrite Heff].
      destruct Heff as (_ & Ha & Hs). rewrite Ha. split; [done|].
      intros id. rewrite Hs.
      destruct (decide (id = id0)) as [->|Hne]; [|apply IH].
      destruct (is_exception e).
      * split; [done|auto].
      * split; [done|auto].
    + destruct (decide (operable σ self id0)) as [Hreg|Hreg];
        [|by rewrite Heff].
      destruct Heff as (_ & Ha & Hs). rewrite Ha.
      destruct (NoDup_list_remove id0 _ IHnd) as [Hnd Hni].
      split; [done|]. intros id. rewrite Hs.
      destruct (decide (id = id0)) as [->|Hne]; [done|].
      destruct (IH id) as [IH1 IH2]. split.
      * intros Hact%IH1. by apply elem_of_list_remove_ne.
      * intros Hin%elem_of_list_remove. by apply IH2.
    + by rewrite Heff.
Qed.
End RegistryFacts.

Section RegistryClaims.
Variable repr_conflicts : list (list (string * string)) → string.

Abbreviation step := (step repr_conflicts).
Abbreviation run := (run repr_conflicts).
Abbreviation reachable := (reachable repr_conflicts).

Lemma run_from_init_reachable σ0 σ self cs :
  PluginRegistry_init σ0 = (Ok self, σ) → reachable (run self cs σ) self.
Proof. intros Hinit. apply run_reachable. by econstructor. Qed.

(** An id none of whose [initialize] actions succeeded is not listed. *)
Lemma not_active_unless_initialized σ self id cs :
  wf σ self → id ∉ active_of σ self →
  (∀ c, c ∈ cs → c ≠ Initialize id (Ok ())) →
  id ∉ active_of (run self cs σ) self.
Proof.
  revert σ. induction cs as [|c cs IH]; intros σ Hwf Hni Hcs; simpl; [done|].
  destruct (step_spec repr_conflicts σ self c Hwf) as [Hwf' Heff].
  apply IH; [done| |intros c' Hc'; apply Hcs; by apply list_elem_of_further].
  assert (c ≠ Initialize id (Ok ())) as Hc by (apply Hcs, list_elem_of_here).
  destruct c as [plugin compat deps|id0 [[]|e]|id0 [[]|e]]; simpl in Heff.
  - destruct Heff as [-> _]. done.
  - destruct (decide (operable σ self id0)); [|by rewrite Heff].
    destruct Heff as (_ & -> & _). case_bool_decide; [done|].
    rewrite elem_of_app, list_elem_of_singleton. intros [?| ->]; [done|].
    by apply Hc.
  - destruct (decide (operable σ self id0)); [|by rewrite Heff].
    destruct Heff as (_ & -> & _). done.
  - destruct (decide (operable σ self id0)); [|by rewrite Heff].
    destruct Heff as (_ & -> & _). intros Hin%elem_of_list_remove. done.
  - by rewrite Heff.
Qed.

(** Calls in which no action of [id] returned and no [initialize] action of
    [id] was interrupted keep the status of [id], or make it [ERROR]. *)
Lemma status_kept_by_other_calls σ self id s cs :
  wf σ self → status_of σ self id = Some s →
  Forall (λ c, succeeds_on id c = false ∧ interrupted_on id c = false) cs →
  status_of (run self cs σ) self id = Some s
  ∨ (s ≠ ERROR ∧ status_of (run self cs σ) self id = Some ERROR).
Proof.
  revert σ s. induction cs as [|c cs IH]; intros σ s Hwf Hs Hcs; simpl; [auto|].
  apply Forall_cons in Hcs as [[Hc Hi] Hcs].
  destruct (step_spec repr_conflicts σ self c Hwf) as [Hwf' Heff].
  pose proof (status_of_registered σ self id s Hwf Hs) as Hreg.
  assert (status_of (step self c σ) self id = Some s
          ∨ status_of (step self c σ) self id = Some ERROR) as [Hs'|Hs'].
  { destruct c as [plugin compat deps|id0 [[]|e]|id0 [[]|e]]; simpl in Heff, Hc, Hi.
    - destruct Heff as [_ [->|(Hnew & _ & Hst)]]; [auto|].
      rewrite Hst. case_decide; [by subst|auto].
    - apply bool_decide_eq_false in Hc.
      destruct (decide (operable σ self id0)); [|rewrite Heff; auto].
      destruct Heff as (_ & _ & Hst). rewrite Hst, decide_False by done. auto.
    - destruct (decide (operable σ self id0)); [|rewrite Heff; auto].
      destruct Heff as (_ & _ & Hst). rewrite Hst.
      destruct (decide (id = id0)) as [<-|Hid]; [|auto].
      rewrite bool_decide_eq_true_2 in Hi by done.
      destruct (is_exception e); [auto|done].
    - apply bool_decide_eq_false in Hc.
      destruct (decide (operable σ self id0)); [|rewrite Heff; auto].
      destruct Heff as (_ & _ & Hst). rewrite Hst, decide_False by done. auto.
    - rewrite Heff. auto. }
  - by apply IH.
  - destruct (decide (s = ERROR)) as [->|Hne]; [by apply IH|].
    right. split; [done|].
    destruct (IH (step self c σ) ERROR Hwf' Hs' Hcs) as [?|[? _]]; done.
Qed.

(** C6: registering a plugin whose id is already present returns an invalid
    result carrying the already-registered error and leaves the whole store,
    hence the plugin map, the metadata map, the active list and the plugin
    count, as it was. *)
Theorem register_plugin_duplicate_rejected σ self plugin compat deps :
  registered σ self (plugin_id plugin) →
  let '(r, σ') := register_plugin repr_conflicts self plugin compat deps σ in
  r = Ok {| is_valid := false;
            errors := ["Plugin " +:+ plugin_id plugin +:+ " is already registered"];
            warnings := [] |}
  ∧ σ' = σ
  ∧ registry_view σ' self = registry_view σ self
  ∧ length (plugins_of σ' self) = length (plugins_of σ self).
Proof. intros Hreg. by rewrite register_plugin_registered. Qed.

(** C7, as the code has it: when the shutdown action of a registered plugin
    [p] raises [e], [shutdown_plugin] leaves the whole store, hence the plugin's
    status and the active list, as it was.  It returns a failure result that
    wraps the text of [e] when [e] is an [Exception]; an [e] outside [Exception]
    reaches the caller as raised; and a falsy [p] is reported as not found,
    its action never run. *)
Theorem shutdown_failure_changes_nothing σ self id p e :
  Dict.get (plugins_of σ self) id = Some p →
  let '(r, σ') := shutdown_plugin self id (Raise e) σ in
  r = (if negb (plugin_truthy p) then
         Ok {| is_valid := false;
               errors := ["Plugin " +:+ id +:+ " not found"];
               warnings := [] |}
       else if is_exception e then
         Ok {| is_valid := false;
               errors := ["Failed to shutdown plugin " +:+ id +:+ ": " +:+ str_exn e];
               warnings := [] |}
       else Raise e)
  ∧ status_of σ' self id = status_of σ self id
  ∧ active_of σ' self = active_of σ self
  ∧ σ' = σ.
Proof.
  intros Hp. destruct (plugin_truthy p) eqn:Ht; simpl.
  - rewrite shutdown_plugin_raise by (apply operable_iff; eauto).
    by destruct (is_exception e).
  - rewrite shutdown_plugin_inoperable; [done|].
    intros (p' & Hp' & Ht')%operable_iff. congruence.
Qed.

(** C5, as the code has it: in a registry driven by any calls [cs] since its
    construction, when the initialize action of a registered, truthy plugin
    raises an [Exception], [initialize_plugin] returns a failure result whose
    message wraps the text of the error and the status becomes [ERROR] (not
    [REGISTERED]); when it raises outside [Exception], the exception reaches the
    caller and the status stays [INITIALIZING].  Either way the active list is
    unchanged, and an id whose initialize action never returned is not in it. *)
Theorem initialize_failure_is_sticky σ0 σ self cs id e :
  PluginRegistry_init σ0 = (Ok self, σ) →
  operable (run self cs σ) self id →
  let '(r, σ') := initialize_plugin self id (Raise e) (run self cs σ) in
  r = (if is_exception e then
         Ok {| is_valid := false;
               errors := ["Failed to initialize plugin " +:+ id +:+ ": " +:+ str_exn e];
               warnings := [] |}
       else Raise e)
  ∧ status_of σ' self id = Some (if is_exception e then ERROR else INITIALIZING)
  ∧ active_of σ' self = active_of (run self cs σ) self
  ∧ ((∀ c, c ∈ cs → c ≠ Initialize id (Ok ())) → id ∉ active_of σ' self).
Proof.
  intros Hinit Hreg.
  pose proof (PluginRegistry_init_spec _ _ _ Hinit) as (Hwf0 & _ & _ & Ha0).
  pose proof (run_wf repr_conflicts σ self cs Hwf0) as Hwf.
  destruct (wf_registered_meta _ self Hwf id (operable_registered _ _ _ Hreg))
    as (l & m & Hl & Hm).
  rewrite (initialize_plugin_raise _ self id l m) by done.
  split; [done|].
  rewrite (set_status_status_of _ self Hwf id l m _ Hl Hm), decide_True by done.
  rewrite (set_status_active_of _ self Hwf l m _ Hm).
  split; [done|]. split; [done|]. intros Hcs.
  apply not_active_unless_initialized; [done| |done].
  rewrite Ha0. apply not_elem_of_nil.
Qed.

(** C3, as the code has it: a plugin in status [ERROR] keeps it through
    [register_plugin] calls, through calls on other ids, through raising
    shutdown actions of its own and through initialize actions of its own that
    raise an [Exception]; from there an [initialize_plugin] whose action returns
    makes it [ACTIVE], a [shutdown_plugin] whose action returns makes it
    [REGISTERED], and an [initialize_plugin] whose action raises outside
    [Exception] leaves it [INITIALIZING]. *)
Theorem error_status_kept_until_an_action_succeeds σ self id cs :
  reachable σ self →
  status_of σ self id = Some ERROR →
  Forall (λ c, succeeds_on id c = false ∧ interrupted_on id c = false) cs →
  status_of (run self cs σ) self id = Some ERROR
  ∧ status_of (step self (Initialize id (Ok ())) (run self cs σ)) self id = Some ACTIVE
  ∧ status_of (step self (Shutdown id (Ok ())) (run self cs σ)) self id = Some REGISTERED
  ∧ ∀ e, is_exception e = false →
         status_of (step self (Initialize id (Raise e)) (run self cs σ)) self id
         = Some INITIALIZING.
Proof.
  intros Hr Hs Hcs.
  pose proof (run_reachable repr_conflicts σ self cs Hr) as Hr'.
  pose proof (reachable_wf _ _ _ Hr) as Hwf0.
  pose proof (reachable_wf _ _ _ Hr') as Hwf.
  destruct (status_kept_by_other_calls σ self id ERROR cs Hwf0 Hs Hcs) as [Hs'|[? _]];
    [|done].
  split; [done|].
  assert (operable (run self cs σ) self id) as Hop
    by (by apply (engaged_operable repr_conflicts _ self id ERROR)).
  split_and!.
  - destruct (step_spec repr_conflicts _ self (Initialize id (Ok ())) Hwf) as [_ Heff].
    simpl in Heff. rewrite decide_True in Heff by done.
    destruct Heff as (_ & _ & ->). by rewrite decide_True.
  - destruct (step_spec repr_conflicts _ self (Shutdown id (Ok ())) Hwf) as [_ Heff].
    simpl in Heff. rewrite decide_True in Heff by done.
    destruct Heff as (_ & _ & ->). by rewrite decide_True.
  - intros e He.
    destruct (step_spec repr_conflicts _ self (Initialize id (Raise e)) Hwf) as [_ Heff].
    simpl in Heff. rewrite decide_True in Heff by done.
    destruct Heff as (_ & _ & ->). by rewrite decide_True, He.
Qed.

(** The two lifecycle methods handle an [Exception] of the plugin's action: on
    a well-formed store they return a result when the action returned or raised
    one. *)
Lemma initialize_plugin_returns σ self id outcome :
  wf σ self → caught outcome = true →
  ∃ r σ', initialize_plugin self id outcome σ = (Ok r, σ').
Proof.
  intros Hwf Hc. destruct (decide (operable σ self id)) as [Hreg|Hreg].
  - destruct (wf_registered_meta σ self Hwf id (operable_registered _ _ _ Hreg))
      as (l & m & Hl & Hm).
    destruct outcome as [[]|e]; simpl in Hc.
    + rewrite (initialize_plugin_ok σ self Hwf id l m) by done. eauto.
    + rewrite (initialize_plugin_raise σ self id l m), Hc by done. eauto.
  - rewrite initialize_plugin_inoperable by done. eauto.
Qed.

Lemma shutdown_plugin_returns σ self id outcome :
  wf σ self → caught outcome = true →
  ∃ r σ', shutdown_plugin self id outcome σ = (Ok r, σ').
Proof.
  intros Hwf Hc. destruct (decide (operable σ self id)) as [Hreg|Hreg].
  - destruct (wf_registered_meta σ self Hwf id (operable_registered _ _ _ Hreg))
      as (l & m & Hl & Hm).
    destruct outcome as [[]|e]; simpl in Hc.
    + rewrite (shutdown_plugin_ok σ self Hwf id l m) by done. eauto.
    + rewrite shutdown_plugin_raise, Hc by done. eauto.
  - rewrite shutdown_plugin_inoperable by done. eauto.
Qed.

(** C4, where the code departs from it: an exception raised by the plugin's
    [check_version_compatibility], or by its [validate_dependencies] after a
    compatible check, leaves [register_plugin] as raised. *)
Theorem register_plugin_propagates_exceptions σ self plugin compat deps e :
  ¬ registered σ self (plugin_id plugin) →
  compat (Dict.values (plugins_of σ self)) = Raise e
  ∨ (∃ c, compat (Dict.values (plugins_of σ self)) = Ok c
          ∧ is_compatible c = true ∧ deps = Raise e) →
  register_plugin repr_conflicts self plugin compat deps σ = (Raise e, σ).
Proof.
  intros Hnew Hraise. rewrite register_plugin_unregistered by done.
  destruct Hraise as [->|(c & -> & -> & ->)]; done.
Qed.
End RegistryClaims.


Lemma store_registered_reachable : reachable repr_plain store_registered registry0.
Proof. by apply (run_from_init_reachable repr_plain ∅). Qed.

Lemma store_failed_reachable : reachable repr_plain store_failed registry0.
Proof. apply run_reachable, store_registered_reachable. Qed.

Lemma iceberg_registered : registered store_registered registry0 "iceberg".
Proof. vm_compute. eauto. Qed.

Lemma register_iceberg_twice :
  let '(r, σ') := register_plugin repr_plain registry0 iceberg compatible (Ok success)
                                  store_registered in
  r = Ok {| is_valid := false;
            errors := ["Plugin iceberg is already registered"];
            warnings := [] |}
  ∧ σ' = store_registered
  ∧ registry_view σ' registry0 = registry_view store_registered registry0
  ∧ length (plugins_of σ' registry0) = length (plugins_of store_registered registry0).
Proof.
  apply (register_plugin_duplicate_rejected repr_plain store_registered registry0 iceberg).
  vm_compute. eauto.
Defined.

Lemma shutdown_iceberg_fails :
  let '(r, σ') := shutdown_plugin registry0 "iceberg" (Raise (Exception "boom"))
                                  store_registered in
  r = Ok {| is_valid := false;
            errors := ["Failed to shutdown plugin iceberg: boom"];
            warnings := [] |}
  ∧ status_of σ' registry0 "iceberg" = status_of store_registered registry0 "iceberg"
  ∧ active_of σ' registry0 = active_of store_registered registry0
  ∧ σ' = store_registered.
Proof.
  apply (shutdown_failure_changes_nothing store_registered registry0 "iceberg" iceberg
           (Exception "boom")).
  reflexivity.
Defined.

(** C7, as stated, fails: when the task is cancelled while the shutdown action
    of the registered [iceberg] is awaited, [shutdown_plugin] returns no result;
    the cancellation reaches the caller. *)
Lemma cancelled_shutdown_is_not_handled :
  registered store_registered registry0 "iceberg"
  ∧ shutdown_plugin registry0 "iceberg" (Raise cancelled) store_registered
    = (Raise cancelled, store_registered).
Proof. split; [apply iceberg_registered | reflexivity]. Qed.

(** C5, as stated, fails: when the task is cancelled while the initialize
    action of the registered [iceberg] is awaited, [initialize_plugin] returns
    no result and the status is left at [INITIALIZING], not [ERROR]. *)
Lemma cancelled_initialize_is_not_handled :
  registered store_registered registry0 "iceberg"
  ∧ let '(r, σ') := initialize_plugin registry0 "iceberg" (Raise cancelled)
                                      store_registered in
    r = Raise cancelled ∧ status_of σ' registry0 "iceberg" = Some INITIALIZING.
Proof. split; [apply iceberg_registered | by vm_compute]. Qed.

Lemma initialize_iceberg_fails :
  let '(r, σ') := initialize_plugin registry0 "iceberg" (Raise (Exception "boom"))
                                    (run repr_plain registry0 [register_iceberg] store0) in
  r = Ok {| is_valid := false;
            errors := ["Failed to initialize plugin iceberg: boom"];
            warnings := [] |}
  ∧ status_of σ' registry0 "iceberg" = Some ERROR
  ∧ active_of σ' registry0 = active_of (run repr_plain registry0 [register_iceberg] store0)
                                       registry0
  ∧ ((∀ c, c ∈ [register_iceberg] → c ≠ Initialize "iceberg" (Ok ())) →
     "iceberg" ∉ active_of σ' registry0).
Proof.
  apply (initialize_failure_is_sticky repr_plain ∅ store0 registry0 [register_iceberg]
           "iceberg" (Exception "boom")).
  - reflexivity.
  - reflexivity.
Defined.

Lemma failed_iceberg_stays_failed :
  status_of (run repr_plain registry0
               [register_iceberg; Shutdown "iceberg" (Raise (Exception "busy"));
                Initialize "delta" (Ok ())] store_failed) registry0 "iceberg"
  = Some ERROR
  ∧ status_of (step repr_plain registry0 (Initialize "iceberg" (Ok ()))
                 (run repr_plain registry0
                    [register_iceberg; Shutdown "iceberg" (Raise (Exception "busy"));
                     Initialize "delta" (Ok ())] store_failed)) registry0 "iceberg"
    = Some ACTIVE
  ∧ status_of (step repr_plain registry0 (Shutdown "iceberg" (Ok ()))
                 (run repr_plain registry0
                    [register_iceberg; Shutdown "iceberg" (Raise (Exception "busy"));
                     Initialize "delta" (Ok ())] store_failed)) registry0 "iceberg"
    = Some REGISTERED
  ∧ status_of (step repr_plain registry0 (Initialize "iceberg" (Raise cancelled))
                 (run repr_plain registry0
                    [register_iceberg; Shutdown "iceberg" (Raise (Exception "busy"));
                     Initialize "delta" (Ok ())] store_failed)) registry0 "iceberg"
    = Some INITIALIZING.
Proof.
  destruct (error_status_kept_until_an_action_succeeds repr_plain store_failed registry0
              "iceberg"
              [register_iceberg; Shutdown "iceberg" (Raise (Exception "busy"));
               Initialize "delta" (Ok ())])
    as (Hkept & Hinit & Hshut & Hint).
  - apply store_failed_reachable.
  - reflexivity.
  - repeat constructor.
  - split_and!; [exact Hkept | exact Hinit | exact Hshut | by apply Hint].
Defined.

(** C3, as stated, fails: after a failed initialize the status is [ERROR], and
    one successful [initialize_plugin] later it is [ACTIVE]; a successful
    [shutdown_plugin] instead makes it [REGISTERED]. *)
Lemma error_status_is_left :
  status_of store_failed registry0 "iceberg" = Some ERROR
  ∧ status_of (run repr_plain registry0 [Initialize "iceberg" (Ok ())] store_failed)
              registry0 "iceberg" = Some ACTIVE
  ∧ status_of (run repr_plain registry0 [Shutdown "iceberg" (Ok ())] store_failed)
              registry0 "iceberg" = Some REGISTERED.
Proof. by vm_compute. Qed.

(** C2, where the code departs from it: when a plugin that is [ACTIVE] is
    initialized again and the action raises, its status becomes [ERROR] while
    its id stays in the active list. *)
Theorem active_formats_lists_a_failed_plugin :
  active_of store_reinitialized registry0 = ["iceberg"]
  ∧ status_of store_reinitialized registry0 "iceberg" = Some ERROR
  ∧ reachable repr_plain store_reinitialized registry0
  ∧ ¬ active_formats_exact store_reinitialized registry0.
Proof.
  assert (active_of store_reinitialized registry0 = ["iceberg"]) as Ha by reflexivity.
  assert (status_of store_reinitialized registry0 "iceberg" = Some ERROR) as Hs
    by reflexivity.
  split; [done|]. split; [done|]. split.
  - apply run_reachable, store_registered_reachable.
  - intros [_ Hex]. specialize (Hex "iceberg"). rewrite Ha, Hs in Hex.
    assert ("iceberg" ∈ ["iceberg"]) as Hin by apply list_elem_of_here.
    apply Hex in Hin. done.
Qed.

Lemma register_with_failing_check :
  register_plugin repr_plain registry0 iceberg (λ _, Raise (Exception "boom"))
                  (Ok success) store0
  = (Raise (Exception "boom"), store0).
Proof.
  apply (register_plugin_propagates_exceptions repr_plain store0 registry0 iceberg).
  - vm_compute. by intros [? ?].
  - by left.
Defined.


(** ** The read properties *)

(** An object put at a fresh reference is out of the registry's sight. *)
Lemma fresh_object_unseen σ self o :
  wf σ self → registry_view (<[fresh (dom σ):=o]> σ) self = registry_view σ self.
Proof.
  intros Hwf. destruct (enrolled_fresh_neq σ self Hwf) as (Hp & Hm & Ha).
  unfold registry_view, metadata_view, plugins_of, metadata_refs, active_of.
  rewrite plugin_dict_insert, meta_dict_insert, str_list_insert.
  rewrite !decide_False by done. do 2 f_equal.
  apply list_fmap_ext. intros i [k l] Hl. simpl. f_equal.
  rewrite meta_obj_insert. case_decide as E; [|done]. exfalso.
  apply list_elem_of_lookup_2 in Hl.
  destruct (wf_refs _ _ Hwf _ _ Hl) as [m Hm'%meta_obj_Some].
  rewrite <-E, fresh_lookup in Hm'. done.
Qed.

(** C9, as the code has it: each read property returns a new container with
    the elements of the registry's own; whatever the caller then stores in the
    returned container, the registry's plugin map, metadata map and active list
    are as before. *)
Theorem read_properties_return_new_containers σ self o :
  wf σ self →
  (let '(r, σ') := plugins self σ in
   ∃ view, r = Ok view ∧ plugin_dict σ' view = plugins_of σ self
           ∧ registry_view σ' self = registry_view σ self
           ∧ registry_view (<[view:=o]> σ') self = registry_view σ self)
  ∧ (let '(r, σ') := metadata self σ in
     ∃ view, r = Ok view ∧ meta_dict σ' view = metadata_refs σ self
             ∧ registry_view σ' self = registry_view σ self
             ∧ registry_view (<[view:=o]> σ') self = registry_view σ self)
  ∧ (let '(r, σ') := active_formats self σ in
     ∃ view, r = Ok view ∧ str_list σ' view = active_of σ self
             ∧ registry_view σ' self = registry_view σ self
             ∧ registry_view (<[view:=o]> σ') self = registry_view σ self).
Proof.
  intros Hwf. unfold plugins, metadata, active_formats, alloc. unfold_M.
  split; [|split]; eexists; (split; [reflexivity|]).
  - rewrite plugin_dict_insert, decide_True by done.
    rewrite insert_insert_eq, !fresh_object_unseen by done. done.
  - rewrite meta_dict_insert, decide_True by done.
    rewrite insert_insert_eq, !fresh_object_unseen by done. done.
  - rewrite str_list_insert, decide_True by done.
    rewrite insert_insert_eq, !fresh_object_unseen by done. done.
Qed.

Lemma store_registered_wf : wf store_registered registry0.
Proof. apply (reachable_wf repr_plain), store_registered_reachable. Qed.

Lemma read_properties_of_iceberg_registry :
  (let '(r, σ') := plugins registry0 store_registered in
   ∃ view, r = Ok view ∧ plugin_dict σ' view = plugins_of store_registered registry0
           ∧ registry_view σ' registry0 = registry_view store_registered registry0
           ∧ registry_view (<[view:=PluginDict []]> σ') registry0
             = registry_view store_registered registry0)
  ∧ (let '(r, σ') := metadata registry0 store_registered in
     ∃ view, r = Ok view ∧ meta_dict σ' view = metadata_refs store_registered registry0
             ∧ registry_view σ' registry0 = registry_view store_registered registry0
             ∧ registry_view (<[view:=PluginDict []]> σ') registry0
               = registry_view store_registered registry0)
  ∧ (let '(r, σ') := active_formats registry0 store_registered in
     ∃ view, r = Ok view ∧ str_list σ' view = active_of store_registered registry0
             ∧ registry_view σ' registry0 = registry_view store_registered registry0
             ∧ registry_view (<[view:=PluginDict []]> σ') registry0
               = registry_view store_registered registry0).
Proof.
  apply (read_properties_return_new_containers store_registered registry0 (PluginDict [])).
  apply store_registered_wf.
Defined.

(** C9, as stated, fails: a caller that sets the status of the record it
    reaches through the returned metadata map changes the record the registry
    holds. *)
Lemma returned_metadata_shares_its_records :
  let '(r, σ') := caller_sets_status registry0 "iceberg" ACTIVE store_registered in
  r = Ok ()
  ∧ status_of store_registered registry0 "iceberg" = Some REGISTERED
  ∧ status_of σ' registry0 "iceberg" = Some ACTIVE
  ∧ active_of σ' registry0 = []
  ∧ metadata_view σ' registry0 ≠ metadata_view store_registered registry0.
Proof. vm_compute. repeat split; congruence. Qed.


(** * The dependency resolver *)

Ltac unfold_D :=
  cbv [mbind mret ST_bind ST_ret bind ret raise await try_except
       utcnow ErrorResponse_new _get_installed_version cache_store get].

Lemma for_each_cons {S A B} (f : A → B → ST S B) x xs acc (σ : S) :
  for_each f (x :: xs) acc σ =
  match f x acc σ with
  | (Ok acc', σ') => for_each f xs acc' σ'
  | (Raise e, σ') => (Raise e, σ')
  end.
Proof. reflexivity. Qed.

Section DependencyFacts.
Context `{Packaging, Runtime}.

(** One turn of the loop of [validate_dependencies]: it returns, it only ever
    adds to the two lists, and what it adds is a [DEP002] or [DEP003] error or a
    version-mismatch warning. *)
Lemma validate_dependency_spec pm name spec errs warns w :
  ∃ es ws w',
    validate_dependency pm (name, spec) (errs, warns) w
    = (Ok (errs ++ es, warns ++ ws), w')
    ∧ manager w' = manager w
    ∧ lookups w' = lookups w ++ runtime_names [(name, spec)]
    ∧ (∀ e, e ∈ es → code e ≠ "DEP001")
    ∧ (∀ m, m ∈ ws →
         dep_type spec ≠ REQUIRED ∧ m = mismatch_warning name version_0_0_0 spec)
    ∧ (dep_scope spec ≠ TEST → dep_type spec = REQUIRED →
       ∀ sp, Requirement (name +:+ dep_version spec) = Ok sp →
             specifier_contains sp version_0_0_0 = false →
             ∃ e, e ∈ es ∧ code e = "DEP002" ∧ component e = pm_id pm
                  ∧ message e = "Incompatible version for " +:+ name).
Proof.
  unfold validate_dependency, runtime_names. simpl.
  destruct (decide (dep_scope spec = TEST)) as [Ht|Ht].
  { exists [], [], w. rewrite !app_nil_r.
    rewrite filter_cons_False, filter_nil by (simpl; auto). simpl.
    split_and!; try done; try (by intros ? ?%elem_of_nil); by rewrite app_nil_r. }
  rewrite filter_cons_True, filter_nil by done. simpl.
  unfold_D. simpl.
  destruct (Requirement (name +:+ dep_version spec)) as [sp|ex] eqn:Hreq.
  - destruct (specifier_contains sp version_0_0_0) eqn:Hc; simpl.
    + eexists [], [], _. rewrite !app_nil_r. split; [reflexivity|]. simpl.
      split_and!; try done; try by intros ? ?%elem_of_nil.
      intros _ _ sp' [= <-]. congruence.
    + destruct (decide (dep_type spec = REQUIRED)) as [Hr|Hr].
      * eexists [_], [], _. rewrite !app_nil_r. split; [reflexivity|]. simpl.
        split_and!; try done; try by intros ? ?%elem_of_nil.
        -- by intros e ->%list_elem_of_singleton.
        -- intros _ _ sp' _ _. eexists. split; [apply list_elem_of_here|done].
      * eexists [], [_], _. rewrite !app_nil_r. split; [reflexivity|]. simpl.
        split_and!; try done; try by intros ? ?%elem_of_nil.
        by intros m ->%list_elem_of_singleton.
  - rewrite (Requirement_raises_Exception _ _ Hreq).
    eexists [_], [], _. rewrite !app_nil_r. split; [reflexivity|]. simpl.
    split_and!; try done; try by intros ? ?%elem_of_nil.
    by intros e ->%list_elem_of_singleton.
Qed.
Lemma runtime_names_cons item items :
  runtime_names (item :: items) = runtime_names [item] ++ runtime_names items.
Proof.
  unfold runtime_names. rewrite <-fmap_app. f_equal.
  change (item :: items) with ([item] ++ items). by rewrite filter_app.
Qed.

(** The whole loop. *)
Lemma validate_all_spec pm items errs warns w :
  ∃ es ws w',
    for_each (validate_dependency pm) items (errs, warns) w
    = (Ok (errs ++ es, warns ++ ws), w')
    ∧ manager w' = manager w
    ∧ lookups w' = lookups w ++ runtime_names items
    ∧ (∀ e, e ∈ es → code e ≠ "DEP001")
    ∧ (∀ m, m ∈ ws →
         ∃ name spec, (name, spec) ∈ items ∧ dep_type spec ≠ REQUIRED
                      ∧ m = mismatch_warning name version_0_0_0 spec)
    ∧ (∀ name spec sp,
         (name, spec) ∈ items → dep_scope spec ≠ TEST → dep_type spec = REQUIRED →
         Requirement (name +:+ dep_version spec) = Ok sp →
         specifier_contains sp version_0_0_0 = false →
         ∃ e, e ∈ es ∧ code e = "DEP002" ∧ component e = pm_id pm
              ∧ message e = "Incompatible version for " +:+ name).
Proof.
  revert errs warns w. induction items as [|[name spec] items IH]; intros errs warns w.
  { exists [], [], w. rewrite !app_nil_r. simpl.
    split_and!; try done; try (by intros ? ?%elem_of_nil).
    by intros ??? ?%elem_of_nil. }
  destruct (validate_dependency_spec pm name spec errs warns w)
    as (es1 & ws1 & w1 & Hrun1 & Hm1 & Hl1 & He1 & Hw1 & Hd1).
  destruct (IH (errs ++ es1) (warns ++ ws1) w1)
    as (es2 & ws2 & w2 & Hrun2 & Hm2 & Hl2 & He2 & Hw2 & Hd2).
  exists (es1 ++ es2), (ws1 ++ ws2), w2.
  split_and!.
  - rewrite for_each_cons, Hrun1, Hrun2. by rewrite !app_assoc.
  - congruence.
  - rewrite Hl2, Hl1, (runtime_names_cons (name, spec) items). by rewrite app_assoc.
  - intros e [?|?]%elem_of_app; auto.
  - intros m [Hin|Hin]%elem_of_app.
    + destruct (Hw1 m Hin) as [? ?]. exists name, spec.
      split_and!; [apply list_elem_of_here|done|done].
    + destruct (Hw2 m Hin) as (n' & s' & ? & ? & ?). exists n', s'.
      split_and!; [by apply list_elem_of_further|done|done].
  - intros n' s' sp [[= -> ->]|Hin]%elem_of_cons Hs Ht Hreq Hc.
    + destruct (Hd1 Hs Ht sp Hreq Hc) as (e & ? & ?). exists e.
      split; [apply elem_of_app; by left|done].
    + destruct (Hd2 n' s' sp Hin Hs Ht Hreq Hc) as (e & ? & ?). exists e.
      split; [apply elem_of_app; by right|done].
Qed.

(** [validate_dependencies] past the cache check: it returns the rendered
    lists and stores the result under the plugin's key, stamped with a fresh
    reading of the clock. *)
Lemma validate_uncached_spec pm w :
  ∃ errs warns w1,
    for_each (validate_dependency pm) (pm_dependencies pm) ([], []) w
    = (Ok (errs, warns), w1)
    ∧ validate_uncached pm w
      = (Ok (validation_result errs warns),
         {| manager :=
              {| _config := _config (manager w);
                 _dependency_cache := _dependency_cache (manager w);
                 _validation_cache :=
                   <[(pm_id pm, pm_version pm):=
                       (validation_result errs warns, utcnow_at (clock_reads w1))]>
                     (_validation_cache (manager w)) |};
            clock_reads := S (clock_reads w1);
            lookups := lookups w ++ runtime_names (pm_dependencies pm) |}).
Proof.
  destruct (validate_all_spec pm (pm_dependencies pm) [] [] w)
    as (errs & warns & w1 & Hrun & Hm & Hl & _).
  simpl in Hrun. exists errs, warns, w1. split; [done|].
  unfold validate_uncached. unfold mbind at 1. unfold ST_bind, bind at 1.
  rewrite Hrun. unfold_D. simpl. by rewrite Hm, Hl.
Qed.

(** [validate_dependencies] on a key that is in the cache. *)
Lemma validate_dependencies_cached pm w result timestamp :
  _validation_cache (manager w) !! (pm_id pm, pm_version pm) = Some (result, timestamp) →
  validate_dependencies pm w =
  if bool_decide (utcnow_at (clock_reads w) - timestamp
                  < cache_ttl (_config (manager w)))%Z
  then (Ok result, clock_read w)
  else validate_uncached pm (clock_read w).
Proof.
  intros Hc. unfold validate_dependencies. unfold_D. simpl. rewrite Hc. simpl.
  by destruct (bool_decide _).
Qed.

Lemma validate_dependencies_uncached pm w :
  _validation_cache (manager w) !! (pm_id pm, pm_version pm) = None →
  validate_dependencies pm w = validate_uncached pm w.
Proof.
  intros Hc. unfold validate_dependencies. unfold_D. simpl. by rewrite Hc.
Qed.

(** Every call returns, and leaves its result in the cache under the key. *)
Lemma validate_dependencies_caches pm w :
  ∃ r w' ts,
    validate_dependencies pm w = (Ok r, w')
    ∧ _validation_cache (manager w') !! (pm_id pm, pm_version pm) = Some (r, ts)
    ∧ _config (manager w') = _config (manager w).
Proof.
  destruct (_validation_cache (manager w) !! (pm_id pm, pm_version pm))
    as [[result ts]|] eqn:Hc.
  - rewrite (validate_dependencies_cached pm w result ts Hc).
    case_bool_decide.
    + exists result, (clock_read w), ts. done.
    + destruct (validate_uncached_spec pm (clock_read w)) as (errs & warns & w1 & _ & ->).
      eexists _, _, _. split; [reflexivity|]. simpl. by rewrite lookup_insert_eq.
  - rewrite (validate_dependencies_uncached pm w Hc).
    destruct (validate_uncached_spec pm w) as (errs & warns & w1 & _ & ->).
    eexists _, _, _. split; [reflexivity|]. simpl. by rewrite lookup_insert_eq.
Qed.

(** C8: a second call of [validate_dependencies] for the key of a first one
    returns the first result, without reading any installed version and
    without touching the manager, when the clock it reads is less than the TTL
    past the stamp of the cached entry; otherwise it computes the result anew
    and stores it under the key with a new stamp. *)
Theorem second_validation_served_from_cache pm pm' w :
  (pm_id pm', pm_version pm') = (pm_id pm, pm_version pm) →
  ∃ r w1 ts,
    validate_dependencies pm w = (Ok r, w1)
    ∧ _validation_cache (manager w1) !! (pm_id pm, pm_version pm) = Some (r, ts)
    ∧ if bool_decide (utcnow_at (clock_reads w1) - ts
                      < cache_ttl (_config (manager w1)))%Z
      then ∃ w2, validate_dependencies pm' w1 = (Ok r, w2)
                 ∧ lookups w2 = lookups w1 ∧ manager w2 = manager w1
      else ∃ r' w2 ts', validate_dependencies pm' w1 = (Ok r', w2)
                        ∧ validate_uncached pm' (clock_read w1) = (Ok r', w2)
                        ∧ lookups w2 = lookups w1 ++ runtime_names (pm_dependencies pm')
                        ∧ _validation_cache (manager w2) !! (pm_id pm, pm_version pm)
                          = Some (r', ts')
                        ∧ ts' = utcnow_at (pred (clock_reads w2)).
Proof.
  intros Hkey.
  destruct (validate_dependencies_caches pm w) as (r & w1 & ts & Hrun & Hc & _).
  exists r, w1, ts. split; [done|]. split; [done|].
  rewrite <-Hkey in Hc.
  rewrite (validate_dependencies_cached pm' w1 r ts Hc).
  case_bool_decide.
  - by exists (clock_read w1).
  - destruct (validate_uncached_spec pm' (clock_read w1))
      as (errs & warns & w2 & _ & Hun).
    rewrite Hun. eexists _, _, _. split; [reflexivity|]. split; [reflexivity|].
    simpl. rewrite <-Hkey, lookup_insert_eq. done.
Qed.

(** What [validate_dependencies] computes past its cache check: no [DEP001]
    error, only version-mismatch warnings of optional dependencies, and a
    [DEP002] error for every required run-time dependency whose requirement
    parses and excludes 0.0.0. *)
Lemma validate_uncached_findings pm w :
  ∃ errs warns w',
    validate_uncached pm w = (Ok (validation_result errs warns), w')
    ∧ (∀ e, e ∈ errs → code e ≠ "DEP001")
    ∧ (∀ m, m ∈ warns →
         ∃ name spec, (name, spec) ∈ pm_dependencies pm
                        ∧ dep_type spec = OPTIONAL
                        ∧ m = mismatch_warning name version_0_0_0 spec)
    ∧ (∀ name spec sp,
         (name, spec) ∈ pm_dependencies pm →
         dep_scope spec = RUNTIME → dep_type spec = REQUIRED →
         Requirement (name +:+ dep_version spec) = Ok sp →
         specifier_contains sp version_0_0_0 = false →
         is_valid (validation_result errs warns) = false
         ∧ ∃ e, e ∈ errs ∧ code e = "DEP002" ∧ component e = pm_id pm
                ∧ message e = "Incompatible version for " +:+ name).
Proof.
  destruct (validate_uncached_spec pm w) as (errs & warns & w1 & Hrun & Hun).
  destruct (validate_all_spec pm (pm_dependencies pm) [] [] w)
    as (es & ws & w1' & Hrun' & _ & _ & He & Hw & Hd).
  simpl in Hrun'. rewrite Hrun in Hrun'. injection Hrun' as <- <- _.
  eexists errs, warns, _. split; [exact Hun|]. split; [exact He|]. split.
  - intros m Hm. destruct (Hw m Hm) as (name & spec & Hin & Ht & ->).
    exists name, spec. split; [done|]. split; [|done]. by destruct (dep_type spec).
  - intros name spec sp Hin Hs Ht Hreq Hc.
    assert (dep_scope spec ≠ TEST) as Hs' by (rewrite Hs; done).
    destruct (Hd name spec sp Hin Hs' Ht Hreq Hc) as (e & He' & Hprops).
    split; [|by exists e].
    unfold validation_result. simpl. apply bool_decide_eq_false.
    destruct errs; [by apply elem_of_nil in He'|done].
Qed.

(** C10, as the code has it: [_get_installed_version] answers 0.0.0 for every
    name, never [None] and never an exception.  A call of
    [validate_dependencies] that finds an entry younger than the TTL under the
    plugin's key returns that entry's result and looks at no dependency.  Every
    other call computes the result: it holds no [DEP001] error, its warnings are
    all version-mismatch warnings of optional dependencies (none says "not
    installed"), and every required dependency of the [RUNTIME] scope whose
    requirement parses and excludes 0.0.0 has a [DEP002] error and makes the
    result invalid. *)
Theorem installed_version_is_always_0_0_0 pm w :
  (∀ package_name w0, ∃ w1,
      _get_installed_version package_name w0 = (Ok (Some version_0_0_0), w1))
  ∧ if served_from_cache pm w then
      ∃ result timestamp,
        _validation_cache (manager w) !! (pm_id pm, pm_version pm)
        = Some (result, timestamp)
        ∧ validate_dependencies pm w = (Ok result, clock_read w)
    else
      ∃ errs warns w',
        validate_dependencies pm w = (Ok (validation_result errs warns), w')
        ∧ (∀ e, e ∈ errs → code e ≠ "DEP001")
        ∧ (∀ m, m ∈ warns →
             ∃ name spec, (name, spec) ∈ pm_dependencies pm
                            ∧ dep_type spec = OPTIONAL
                            ∧ m = mismatch_warning name version_0_0_0 spec)
        ∧ (∀ name spec sp,
             (name, spec) ∈ pm_dependencies pm →
             dep_scope spec = RUNTIME → dep_type spec = REQUIRED →
             Requirement (name +:+ dep_version spec) = Ok sp →
             specifier_contains sp version_0_0_0 = false →
             is_valid (validation_result errs warns) = false
             ∧ ∃ e, e ∈ errs ∧ code e = "DEP002" ∧ component e = pm_id pm
                    ∧ message e = "Incompatible version for " +:+ name).
Proof.
  split; [intros package_name w0; eexists; reflexivity|].
  unfold served_from_cache.
  destruct (_validation_cache (manager w) !! (pm_id pm, pm_version pm))
    as [[result timestamp]|] eqn:Hc.
  - rewrite (validate_dependencies_cached pm w result timestamp Hc).
    case_bool_decide; [by eexists _, _|].
    apply validate_uncached_findings.
  - rewrite (validate_dependencies_uncached pm w Hc).
    apply validate_uncached_findings.
Qed.

(** ** Resolution across plugins *)

Lemma add_requirement_nonempty plugin graph name spec :
  versions_nonempty graph → dep_version spec ≠ "" →
  versions_nonempty (add_requirement plugin graph (name, spec)).
Proof.
  intros Hg Hv. unfold add_requirement.
  set (graph' := if Dict.contains graph name then graph else Dict.set graph name ∅).
  assert (versions_nonempty graph') as Hg'.
  { unfold graph'. destruct (Dict.contains graph name); [done|].
    intros n X r [[= -> ->]|Hin]%DictFacts.elem_of_set Hr; [set_solver|].
    by eapply Hg. }
  intros n X r [[= -> ->]|Hin]%DictFacts.elem_of_set Hr; [|by eapply Hg'].
  apply elem_of_union in Hr as [->%elem_of_singleton|Hr]; [done|].
  destruct (Dict.get graph' name) as [Y|] eqn:HY; simpl in Hr; [|set_solver].
  apply DictFacts.get_Some_elem_of in HY. by eapply Hg'.
Qed.

Lemma dependency_graph_nonempty plugins :
  (∀ p name spec, p ∈ plugins → (name, spec) ∈ pm_dependencies p →
                  dep_version spec ≠ "") →
  versions_nonempty (dependency_graph plugins).
Proof.
  unfold dependency_graph.
  assert (versions_nonempty []) as Hnil by (by intros ??? ?%elem_of_nil).
  revert Hnil. generalize (@nil (string * gset (string * string))) as graph.
  induction plugins as [|p plugins IH]; intros graph Hg Hv; simpl; [done|].
  apply IH; [|intros ???? ?; eapply Hv; [by apply list_elem_of_further|done]].
  assert (∀ name spec, (name, spec) ∈ pm_dependencies p → dep_version spec ≠ "")
    as Hp by (intros ???; eapply Hv; [apply list_elem_of_here|done]).
  clear IH Hv. revert graph Hg.
  induction (pm_dependencies p) as [|[name spec] items IHi]; intros graph Hg; simpl;
    [done|].
  apply IHi; [intros ???; eapply Hp; by apply list_elem_of_further|].
  apply add_requirement_nonempty; [done|]. eapply Hp, list_elem_of_here.
Qed.

(** A group of requirements whose version strings are not empty passes: the
    merge answers the requirement met first, which is truthy. *)
Lemma resolve_requirement_passes name requirements errs w :
  (∀ X, set_iter X ≡ₚ elements X) →
  (∀ r, r ∈ requirements → r.2 ≠ "") →
  resolve_requirement (name, requirements) errs w = (Ok errs, w).
Proof.
  intros Hiter Hne. unfold resolve_requirement.
  case_bool_decide as Hsize; [|done].
  unfold_D. unfold _merge_version_requirements.
  destruct (decide (requirements = ∅)) as [->|Hnonempty].
  { rewrite size_empty in Hsize. lia. }
  pose proof (Hiter requirements) as Hperm.
  destruct (set_iter requirements) as [|first rest] eqn:Hit.
  { symmetry in Hperm. apply Permutation_nil_r in Hperm.
    apply elements_empty_inv, leibniz_equiv in Hperm. done. }
  assert (first ∈ requirements) as Hin.
  { apply elem_of_elements. rewrite <-Hperm. apply list_elem_of_here. }
  simpl. rewrite bool_decide_eq_false_2 by (by apply Hne). done.
Qed.

(** What the merge can raise is a [StopIteration], an [Exception]. *)
Lemma merge_raises_Exception requirements e :
  _merge_version_requirements requirements = Raise e → is_exception e = true.
Proof.
  unfold _merge_version_requirements.
  destruct (decide _); [done|]. destruct (set_iter _); [|done]. by intros [= <-].
Qed.

(** [resolve_dependencies] catches what the merge raises: it always returns. *)
Lemma resolve_requirement_returns item errs w :
  ∃ errs' w', resolve_requirement item errs w = (Ok errs', w').
Proof.
  destruct item as [name requirements]. unfold resolve_requirement.
  case_bool_decide; [|by eexists _, _].
  unfold_D.
  destruct (_merge_version_requirements requirements) as [merged|e] eqn:Hmerge.
  - destruct (negb (truthy merged)); by eexists _, _.
  - rewrite (merge_raises_Exception _ _ Hmerge). by eexists _, _.
Qed.

Lemma resolve_dependencies_returns plugins w :
  ∃ r w', resolve_dependencies plugins w = (Ok r, w').
Proof.
  unfold resolve_dependencies, resolve_errors.
  assert (∀ graph errs w0, ∃ errs' w',
            for_each resolve_requirement graph errs w0 = (Ok errs', w')) as Hrun.
  { induction graph as [|item graph IH]; intros errs w0; [by eexists _, _|].
    rewrite for_each_cons.
    destruct (resolve_requirement_returns item errs w0) as (errs1 & w1 & ->).
    apply IH. }
  destruct (Hrun (dependency_graph plugins) [] w) as (errs' & w' & Hr).
  unfold mbind, ST_bind, bind. rewrite Hr. by eexists _, _.
Qed.

(** C1, where the code departs from it: whatever the plugins require, as long
    as no version string is empty, [resolve_dependencies] reports a valid
    result with no error, jointly unsatisfiable requirements included. *)
Theorem conflicting_requirements_are_not_reported plugins w :
  (∀ X, set_iter X ≡ₚ elements X) →
  (∀ p name spec, p ∈ plugins → (name, spec) ∈ pm_dependencies p →
                  dep_version spec ≠ "") →
  resolve_dependencies plugins w
  = (Ok {| is_valid := true; errors := []; warnings := [] |}, w).
Proof.
  intros Hiter Hv. apply dependency_graph_nonempty in Hv.
  unfold resolve_dependencies, resolve_errors.
  assert (∀ errs, for_each resolve_requirement (dependency_graph plugins) errs w
                  = (Ok errs, w)) as Hrun.
  { revert Hv. generalize (dependency_graph plugins) as graph.
    induction graph as [|[name X] graph IH]; intros Hv errs; [done|].
    rewrite for_each_cons, resolve_requirement_passes; [|done|].
    - apply IH. intros ??? ?; eapply Hv. by apply list_elem_of_further.
    - intros r Hr. eapply Hv; [apply list_elem_of_here|done]. }
  unfold mbind, ST_bind, bind. by rewrite Hrun.
Qed.
End DependencyFacts.


(** ** The resolver on the plugins of the repository's tests *)

Lemma numpy_conflict_passes :
  resolve_dependencies [Demo.plugin1; Demo.plugin2] Demo.world0
  = (Ok {| is_valid := true; errors := []; warnings := [] |}, Demo.world0).
Proof.
  apply conflicting_requirements_are_not_reported.
  - intros X. reflexivity.
  - intros p name spec Hp Hin.
    apply elem_of_cons in Hp as [->|Hp];
      [|apply elem_of_cons in Hp as [->|Hp]; [|by apply elem_of_nil in Hp]];
      simpl in Hin; apply list_elem_of_singleton in Hin; by injection Hin as _ ->.
Defined.

Lemma sample_validated_twice :
  ∃ r w1 ts,
    validate_dependencies Demo.sample_plugin_metadata Demo.world0 = (Ok r, w1)
    ∧ _validation_cache (manager w1) !! ("test-plugin", "1.0.0") = Some (r, ts)
    ∧ if bool_decide (utcnow_at (clock_reads w1) - ts
                      < cache_ttl (_config (manager w1)))%Z
      then ∃ w2, validate_dependencies Demo.sample_plugin_metadata w1 = (Ok r, w2)
                 ∧ lookups w2 = lookups w1 ∧ manager w2 = manager w1
      else ∃ r' w2 ts',
             validate_dependencies Demo.sample_plugin_metadata w1 = (Ok r', w2)
             ∧ validate_uncached Demo.sample_plugin_metadata (clock_read w1) = (Ok r', w2)
             ∧ lookups w2
               = lookups w1 ++ runtime_names (pm_dependencies Demo.sample_plugin_metadata)
             ∧ _validation_cache (manager w2) !! ("test-plugin", "1.0.0") = Some (r', ts')
             ∧ ts' = utcnow_at (pred (clock_reads w2)).
Proof.
  apply (second_validation_served_from_cache
           Demo.sample_plugin_metadata Demo.sample_plugin_metadata Demo.world0).
  reflexivity.
Defined.

(** C10, as stated, fails: the test plugin is validated while its dependency
    map is empty, then again, within the TTL, once it requires numpy>=1.20.0 at
    run time.  The requirement parses and excludes 0.0.0, yet the second call
    answers with the cached, valid result: no [DEP002] error. *)
Lemma cached_result_hides_a_version_mismatch :
  let '(r1, w1) := validate_dependencies Samples.test_plugin_bare Demo.world0 in
  let '(r2, w2) := validate_dependencies Demo.sample_plugin_metadata w1 in
  r2 = Ok {| is_valid := true; errors := []; warnings := [] |}
  ∧ Dict.get (pm_dependencies Demo.sample_plugin_metadata) "numpy"
    = Some {| dep_name := "numpy"; dep_version := ">=1.20.0";
              dep_type := REQUIRED; dep_scope := RUNTIME |}
  ∧ ∃ sp, Requirement ("numpy" +:+ ">=1.20.0") = Ok sp
          ∧ specifier_contains sp version_0_0_0 = false.
Proof. vm_compute. split_and!; [done|done|]. by eexists. Qed.

(** With the default TTL of one hour the second call, one second later, is a
    cache hit: the same result and no second lookup. *)
Example sample_cache_hit :
  let '(r1, w1) := validate_dependencies Demo.sample_plugin_metadata Demo.world0 in
  let '(r2, w2) := validate_dependencies Demo.sample_plugin_metadata w1 in
  r2 = r1 ∧ lookups w1 = ["numpy"] ∧ lookups w2 = ["numpy"]
  ∧ clock_reads w1 = 2 ∧ clock_reads w2 = 3.
Proof. by vm_compute. Qed.

(** With a TTL of zero the entry is stale at once: the second call looks the
    version up again and stamps a new entry. *)
Example sample_cache_expired :
  let '(r1, w1) := validate_dependencies Demo.sample_plugin_metadata (Demo.world_ttl 0) in
  let '(r2, w2) := validate_dependencies Demo.sample_plugin_metadata w1 in
  lookups w1 = ["numpy"] ∧ lookups w2 = ["numpy"; "numpy"]
  ∧ (snd <$> _validation_cache (manager w1) !! ("test-plugin", "1.0.0")) = Some 1000000%Z
  ∧ (snd <$> _validation_cache (manager w2) !! ("test-plugin", "1.0.0")) = Some 4000000%Z.
Proof. by vm_compute. Qed.

(** The sample plugin requires numpy>=1.20.0 at run time, which 0.0.0 does not
    meet: one [DEP002] error, no warning; its pytest requirement is skipped. *)
Example sample_validation :
  (validate_dependencies Demo.sample_plugin_metadata Demo.world0).1
  = Ok {| is_valid := false;
          errors := ["code='DEP002' component='test-plugin' message='Incompatible version for numpy'"];
          warnings := [] |}.
Proof. by vm_compute. Qed.

(** * More of the registry *)

(** ** Records under store updates *)

Lemma metadata_for_enrolled self plugin σ :
  meta_obj (enrolled self plugin σ) (fresh (dom σ)) = Some (metadata_for plugin)
  ∨ fresh (dom σ) = _plugins self ∨ fresh (dom σ) = _metadata self.
Proof.
  destruct (decide (fresh (dom σ) = _metadata self)) as [|Hm]; [auto|].
  destruct (decide (fresh (dom σ) = _plugins self)) as [|Hp]; [auto|].
  left. unfold enrolled. rewrite !meta_obj_insert.
  rewrite !(decide_False (P := _ self = fresh (dom σ))) by done.
  by rewrite decide_True.
Qed.

Section Records.
Context (σ : store) (self : PluginRegistry) (Hwf : wf σ self).

Lemma set_status_metadata_of id l m s id' :
  Dict.get (metadata_refs σ self) id = Some l →
  meta_obj σ l = Some m →
  metadata_of (<[l:=MetaObj (set_format_status s m)]> σ) self id' =
  if decide (id' = id) then Some (set_format_status s m) else metadata_of σ self id'.
Proof.
  intros Hl Hm. unfold metadata_of.
  rewrite (set_status_metadata_refs σ self Hwf l m s Hm).
  destruct (decide (id' = id)) as [->|Hne].
  - rewrite Hl. simpl. by rewrite meta_obj_insert, decide_True.
  - destruct (Dict.get (metadata_refs σ self) id') as [l'|] eqn:Hl'; [|done].
    simpl. rewrite meta_obj_insert, decide_False; [done|].
    intros <-. apply Hne. by eapply (wf_inj _ _ Hwf).
Qed.

Lemma set_active_metadata_of xs id :
  metadata_of (<[_active_formats self:=StrList xs]> σ) self id = metadata_of σ self id.
Proof.
  unfold metadata_of. rewrite (set_active_metadata_refs σ self Hwf xs).
  destruct (Dict.get _ id); simpl; [|done]. by apply set_active_meta_obj.
Qed.

Lemma enrolled_metadata_of plugin id' :
  ¬ registered σ self (plugin_id plugin) →
  metadata_of (enrolled self plugin σ) self id' =
  if decide (id' = plugin_id plugin) then Some (metadata_for plugin)
  else metadata_of σ self id'.
Proof.
  intros Hnew. unfold metadata_of.
  rewrite (enrolled_metadata_refs σ self Hwf plugin).
  destruct (decide (id' = plugin_id plugin)) as [->|Hne].
  - rewrite DictFacts.get_set_eq. simpl.
    destruct (enrolled_fresh_neq σ self Hwf) as (? & ? & ?).
    destruct (metadata_for_enrolled self plugin σ) as [?|[?|?]]; done.
  - rewrite DictFacts.get_set_ne by done.
    destruct (Dict.get (metadata_refs σ self) id') as [l'|] eqn:Hl'; [|done].
    simpl. apply (enrolled_meta_obj_old σ self Hwf). by eapply wf_get_live.
Qed.

Lemma metadata_of_status id :
  status_of σ self id = (λ m, tf_status (pm_format m)) <$> metadata_of σ self id.
Proof. reflexivity. Qed.
End Records.

Lemma dict_get_set {V} (d : list (string * V)) k v k' :
  Dict.get (Dict.set d k v) k' = if decide (k' = k) then Some v else Dict.get d k'.
Proof.
  case_decide as E; [subst; apply DictFacts.get_set_eq|].
  by apply DictFacts.get_set_ne.
Qed.

Lemma dict_set_length {V} (d : list (string * V)) k v :
  Dict.get d k = None → length (Dict.set d k v) = S (length d).
Proof.
  induction d as [|[k0 v0] d IH]; simpl; [done|].
  destruct (decide (k0 = k)); [done|]. intros Hn. simpl. by rewrite IH.
Qed.

Lemma list_remove_snoc x l : x ∉ l → list_remove x (l ++ [x]) = l.
Proof.
  induction l as [|y l IH]; simpl; [by rewrite decide_True|].
  rewrite not_elem_of_cons. intros [Hne Hni].
  rewrite decide_False by congruence. by rewrite IH.
Qed.

(** ** What one call does to the records *)

Section RecordSteps.
Variable repr_conflicts : list (list (string * string)) → string.

Abbreviation step := (step repr_conflicts).
Abbreviation run := (run repr_conflicts).
Abbreviation reachable := (reachable repr_conflicts).

(** A call either leaves a store as it is, or stores a new plugin with the
    record built for it, or overwrites the status of its target's record. *)
Lemma step_records σ self c :
  wf σ self →
  step self c σ = σ
  ∨ (∃ plugin compat deps, c = Register plugin compat deps
       ∧ ¬ registered σ self (plugin_id plugin)
       ∧ plugins_of (step self c σ) self
         = Dict.set (plugins_of σ self) (plugin_id plugin) plugin
       ∧ ∀ id', metadata_of (step self c σ) self id' =
                if decide (id' = plugin_id plugin) then Some (metadata_for plugin)
                else metadata_of σ self id')
  ∨ (∃ m s, (∃ o, c = Initialize (target c) o ∨ c = Shutdown (target c) o)
       ∧ registered σ self (target c)
       ∧ metadata_of σ self (target c) = Some m
       ∧ plugins_of (step self c σ) self = plugins_of σ self
       ∧ ∀ id', metadata_of (step self c σ) self id' =
                if decide (id' = target c) then Some (set_format_status s m)
                else metadata_of σ self id').
Proof.
  intros Hwf.
  destruct c as [plugin compat deps|id o|id o]; unfold step, do_call; simpl.
  - destruct (decide (registered σ self (plugin_id plugin))) as [Hreg|Hreg].
    { rewrite register_plugin_registered by done. by left. }
    rewrite register_plugin_unregistered by done.
    destruct (compat _) as [c|e]; simpl; [|by left].
    destruct (negb (is_compatible c)); simpl; [by left|].
    destruct deps as [d|e]; simpl; [|by left].
    destruct (negb (is_valid d)); simpl; [by left|].
    right. left. exists plugin, compat, (Ok d).
    split_and!; [done|done|by apply enrolled_plugins_of|].
    intros id'. by apply enrolled_metadata_of.
  - destruct (decide (operable σ self id)) as [Hop|Hop];
      [|rewrite initialize_plugin_inoperable by done; by left].
    pose proof (operable_registered _ _ _ Hop) as Hreg.
    destruct (wf_registered_meta σ self Hwf id Hreg) as (l & m & Hl & Hm).
    assert (metadata_of σ self id = Some m) as Hmeta
      by (unfold metadata_of; rewrite Hl; done).
    right. right. destruct o as [[]|e].
    + rewrite (initialize_plugin_ok σ self Hwf id l m) by done. simpl.
      exists m, ACTIVE. split; [eauto|]. split; [done|]. split; [done|].
      pose proof (set_status_wf σ self Hwf l m ACTIVE Hm) as Hwf1.
      case_bool_decide.
      * split; [by apply set_status_plugins_of|].
        intros id'. by apply set_status_metadata_of.
      * rewrite set_active_plugins_of by done.
        split; [by apply set_status_plugins_of|]. intros id'.
        rewrite set_active_metadata_of by done. by apply set_status_metadata_of.
    + rewrite (initialize_plugin_raise σ self id l m) by done. simpl.
      exists m, (if is_exception e then ERROR else INITIALIZING).
      split; [eauto|]. split; [done|]. split; [done|].
      split; [by apply set_status_plugins_of|].
      intros id'. by apply set_status_metadata_of.
  - destruct (decide (operable σ self id)) as [Hop|Hop];
      [|rewrite shutdown_plugin_inoperable by done; by left].
    pose proof (operable_registered _ _ _ Hop) as Hreg.
    destruct o as [[]|e]; [|rewrite shutdown_plugin_raise by done; by left].
    destruct (wf_registered_meta σ self Hwf id Hreg) as (l & m & Hl & Hm).
    assert (metadata_of σ self id = Some m) as Hmeta
      by (unfold metadata_of; rewrite Hl; done).
    right. right.
    rewrite (shutdown_plugin_ok σ self Hwf id l m) by done. simpl.
    exists m, REGISTERED. split; [eauto|]. split; [done|]. split; [done|].
    pose proof (set_status_wf σ self Hwf l m REGISTERED Hm) as Hwf1.
    case_bool_decide.
    + rewrite set_active_plugins_of by done.
      split; [by apply set_status_plugins_of|]. intros id'.
      rewrite set_active_metadata_of by done. by apply set_status_metadata_of.
    + split; [by apply set_status_plugins_of|].
      intros id'. by apply set_status_metadata_of.
Qed.
End RecordSteps.

(** ** Registration *)

Section Registration.
Variable repr_conflicts : list (list (string * string)) → string.

Abbreviation step := (step repr_conflicts).
Abbreviation run := (run repr_conflicts).
Abbreviation reachable := (reachable repr_conflicts).

(** A plugin with a new id that passes both checks is stored: the call returns
    a valid result, [get_plugin] then answers the plugin, [get_plugin_metadata]
    a record built from its id, name, version and interfaces with status
    [REGISTERED] and no dependencies, the plugin map is one longer, and every
    other id keeps its plugin and its record; the active list is untouched. *)
Theorem register_plugin_admits σ self plugin compat deps c d :
  wf σ self →
  ¬ registered σ self (plugin_id plugin) →
  compat (Dict.values (plugins_of σ self)) = Ok c → is_compatible c = true →
  deps = Ok d → is_valid d = true →
  let '(r, σ') := register_plugin repr_conflicts self plugin compat deps σ in
  r = Ok {| is_valid := true; errors := []; warnings := [] |}
  ∧ get_plugin self (plugin_id plugin) σ' = (Ok (Some plugin), σ')
  ∧ (∃ l, get_plugin_metadata self (plugin_id plugin) σ' = (Ok (Some l), σ')
          ∧ meta_obj σ' l = Some (metadata_for plugin))
  ∧ status_of σ' self (plugin_id plugin) = Some REGISTERED
  ∧ length (plugins_of σ' self) = S (length (plugins_of σ self))
  ∧ active_of σ' self = active_of σ self
  ∧ ∀ id', id' ≠ plugin_id plugin →
           Dict.get (plugins_of σ' self) id' = Dict.get (plugins_of σ self) id'
           ∧ metadata_of σ' self id' = metadata_of σ self id'.
Proof.
  intros Hwf Hnew Hc Hcompat -> Hvalid.
  rewrite register_plugin_unregistered, Hc, Hcompat, Hvalid by done. simpl.
  pose proof (enrolled_plugins_of σ self Hwf plugin) as Hp.
  pose proof (enrolled_metadata_refs σ self Hwf plugin) as Hr.
  pose proof (enrolled_metadata_of σ self Hwf plugin) as Hm.
  unfold plugins_of in Hp. unfold metadata_refs in Hr.
  split; [done|]. split.
  { unfold get_plugin, read. by rewrite Hp, DictFacts.get_set_eq. }
  split.
  { exists (fresh (dom σ)). unfold get_plugin_metadata, read.
    rewrite Hr, DictFacts.get_set_eq. split; [done|].
    specialize (Hm (plugin_id plugin) Hnew). rewrite decide_True in Hm by done.
    unfold metadata_of, metadata_refs in Hm.
    by rewrite Hr, DictFacts.get_set_eq in Hm. }
  split.
  { rewrite metadata_of_status, Hm, decide_True by done. done. }
  split.
  { unfold plugins_of. rewrite Hp. apply dict_set_length.
    by apply eq_None_not_Some. }
  split; [by apply enrolled_active_of|].
  intros id' Hne. split.
  - unfold plugins_of. rewrite Hp. by apply DictFacts.get_set_ne.
  - rewrite Hm by done. by rewrite decide_False.
Qed.

(** The compatibility check comes first: a plugin with a new id that the check
    reports incompatible is rejected with the conflicts in the message and the
    store unchanged, whatever its dependency validation would have answered or
    raised. *)
Theorem incompatible_plugin_rejected_first σ self plugin compat deps c :
  ¬ registered σ self (plugin_id plugin) →
  compat (Dict.values (plugins_of σ self)) = Ok c → is_compatible c = false →
  register_plugin repr_conflicts self plugin compat deps σ
  = (Ok {| is_valid := false;
           errors := ["Version compatibility check failed: "
                      +:+ repr_conflicts (conflicts c)];
           warnings := [] |}, σ).
Proof.
  intros Hnew Hc Hcompat.
  by rewrite register_plugin_unregistered, Hc, Hcompat.
Qed.

(** Registration is all or nothing: the store changes only when the call
    returns a valid result, and then the id was new and is registered
    afterwards; a call that returns an invalid result or raises leaves the
    store as it was. *)
Theorem register_plugin_all_or_nothing σ self plugin compat deps :
  wf σ self →
  let '(r, σ') := register_plugin repr_conflicts self plugin compat deps σ in
  match r with
  | Ok v =>
      if is_valid v
      then v = success ∧ ¬ registered σ self (plugin_id plugin)
           ∧ registered σ' self (plugin_id plugin) ∧ wf σ' self
      else σ' = σ
  | Raise _ => σ' = σ
  end.
Proof.
  intros Hwf.
  destruct (decide (registered σ self (plugin_id plugin))) as [Hreg|Hreg].
  { by rewrite register_plugin_registered. }
  rewrite register_plugin_unregistered by done.
  destruct (compat _) as [c|e]; [|done].
  destruct (is_compatible c); simpl; [|done].
  destruct deps as [d|e]; [|done].
  destruct (is_valid d) eqn:Hd; simpl; [|done].
  split_and!; [done|done| |by apply enrolled_wf].
  unfold registered. rewrite (enrolled_plugins_of σ self Hwf plugin).
  rewrite DictFacts.get_set_eq. eauto.
Qed.
End Registration.

(** ** The lifecycle *)

Section Lifecycle.
Variable repr_conflicts : list (list (string * string)) → string.

Abbreviation step := (step repr_conflicts).
Abbreviation run := (run repr_conflicts).
Abbreviation reachable := (reachable repr_conflicts).

(** On an id that is not registered both lifecycle methods answer "not found"
    and leave the store alone; the plugin action is not consulted. *)
Theorem lifecycle_of_unknown_plugin σ self id outcome :
  ¬ registered σ self id →
  initialize_plugin self id outcome σ
  = (Ok {| is_valid := false; errors := ["Plugin " +:+ id +:+ " not found"];
           warnings := [] |}, σ)
  ∧ shutdown_plugin self id outcome σ
    = (Ok {| is_valid := false; errors := ["Plugin " +:+ id +:+ " not found"];
             warnings := [] |}, σ).
Proof.
  intros Hreg. split.
  - by apply initialize_plugin_unregistered.
  - by apply shutdown_plugin_unregistered.
Qed.

(** A registered plugin whose object is falsy is treated as an unknown one:
    both lifecycle methods answer "not found" and leave the store alone; the
    plugin action is not consulted. *)
Theorem lifecycle_of_falsy_plugin σ self id p outcome :
  Dict.get (plugins_of σ self) id = Some p →
  plugin_truthy p = false →
  initialize_plugin self id outcome σ
  = (Ok {| is_valid := false; errors := ["Plugin " +:+ id +:+ " not found"];
           warnings := [] |}, σ)
  ∧ shutdown_plugin self id outcome σ
    = (Ok {| is_valid := false; errors := ["Plugin " +:+ id +:+ " not found"];
             warnings := [] |}, σ).
Proof.
  intros Hp Ht.
  assert (¬ operable σ self id) as Hop.
  { intros (p' & Hp' & Ht')%operable_iff. congruence. }
  split.
  - by apply initialize_plugin_inoperable.
  - by apply shutdown_plugin_inoperable.
Qed.

(** When the plugin's action returns or raises an [Exception], neither
    lifecycle method raises on a registry reached by calls: it returns a result
    that is valid exactly when the id is registered, the plugin object is truthy
    and the action returned. *)
Theorem lifecycle_methods_return σ self id outcome :
  reachable σ self →
  caught outcome = true →
  (∃ r σ', initialize_plugin self id outcome σ = (Ok r, σ')
           ∧ is_valid r = (bool_decide (operable σ self id) && returned outcome))
  ∧ (∃ r σ', shutdown_plugin self id outcome σ = (Ok r, σ')
             ∧ is_valid r = (bool_decide (operable σ self id) && returned outcome)).
Proof.
  intros Hwf%reachable_wf Hc.
  destruct (decide (operable σ self id)) as [Hop|Hop].
  - rewrite bool_decide_eq_true_2 by done.
    destruct (wf_registered_meta σ self Hwf id (operable_registered _ _ _ Hop))
      as (l & m & Hl & Hm).
    destruct outcome as [[]|e]; simpl in *.
    + rewrite (initialize_plugin_ok σ self Hwf id l m) by done.
      rewrite (shutdown_plugin_ok σ self Hwf id l m) by done.
      split; by eexists _, _.
    + rewrite (initialize_plugin_raise σ self id l m) by done.
      rewrite shutdown_plugin_raise by done. rewrite Hc.
      split; by eexists _, _.
  - rewrite bool_decide_eq_false_2 by done.
    rewrite initialize_plugin_inoperable, shutdown_plugin_inoperable by done.
    split; by eexists _, _.
Qed.

(** For a registered plugin whose object is truthy: an [initialize_plugin]
    whose action returns makes the plugin [ACTIVE] and listed, once; a
    [shutdown_plugin] whose action returns, after it, makes the plugin
    [REGISTERED] and not listed.  The active list ends as it began, less the id;
    the plugin map is untouched. *)
Theorem initialize_then_shutdown σ self id :
  reachable σ self →
  operable σ self id →
  ∃ σ1 σ2,
    initialize_plugin self id (Ok ()) σ = (Ok success, σ1)
    ∧ status_of σ1 self id = Some ACTIVE
    ∧ id ∈ active_of σ1 self ∧ NoDup (active_of σ1 self)
    ∧ shutdown_plugin self id (Ok ()) σ1 = (Ok success, σ2)
    ∧ status_of σ2 self id = Some REGISTERED
    ∧ (id ∉ active_of σ2 self)
    ∧ active_of σ2 self = list_remove id (active_of σ self)
    ∧ plugins_of σ2 self = plugins_of σ self.
Proof.
  intros Hr Hreg. pose proof (reachable_wf _ _ _ Hr) as Hwf.
  destruct (active_formats_sound repr_conflicts σ self Hr) as [Hnd _].
  destruct (wf_registered_meta σ self Hwf id (operable_registered _ _ _ Hreg))
    as (l & m & Hl & Hm).
  pose proof (initialize_plugin_ok σ self Hwf id l m Hreg Hl Hm) as Hinit.
  set (σ1 := step self (Initialize id (Ok ())) σ).
  assert (initialize_plugin self id (Ok ()) σ = (Ok success, σ1)) as Hinit1.
  { unfold σ1, step, do_call. by rewrite Hinit. }
  destruct (step_spec repr_conflicts σ self (Initialize id (Ok ())) Hwf) as [Hwf1 Heff1].
  fold σ1 in Hwf1, Heff1. simpl in Heff1. rewrite decide_True in Heff1 by done.
  destruct Heff1 as (Hp1 & Ha1 & Hs1).
  assert (operable σ1 self id) as Hreg1 by (unfold operable; by rewrite Hp1).
  destruct (wf_registered_meta σ1 self Hwf1 id (operable_registered _ _ _ Hreg1))
    as (l1 & m1 & Hl1 & Hm1).
  pose proof (shutdown_plugin_ok σ1 self Hwf1 id l1 m1 Hreg1 Hl1 Hm1) as Hshut.
  set (σ2 := step self (Shutdown id (Ok ())) σ1).
  assert (shutdown_plugin self id (Ok ()) σ1 = (Ok success, σ2)) as Hshut2.
  { unfold σ2, step, do_call. by rewrite Hshut. }
  destruct (step_spec repr_conflicts σ1 self (Shutdown id (Ok ())) Hwf1) as [Hwf2 Heff2].
  fold σ2 in Hwf2, Heff2. simpl in Heff2. rewrite decide_True in Heff2 by done.
  destruct Heff2 as (Hp2 & Ha2 & Hs2).
  clear Hinit Hshut.
  assert (active_of σ1 self = active_of σ self ∧ id ∈ active_of σ self
          ∨ active_of σ1 self = active_of σ self ++ [id] ∧ id ∉ active_of σ self)
    as Hcases.
  { destruct (decide (id ∈ active_of σ self)) as [Hin|Hin].
    - left. by rewrite Ha1, bool_decide_eq_true_2.
    - right. by rewrite Ha1, bool_decide_eq_false_2. }
  clear Ha1.
  assert (NoDup (active_of σ1 self)) as Hnd1.
  { destruct Hcases as [[-> _]|[-> Hin]]; [done|]. apply NoDup_app.
    split; [done|]. split; [|apply NoDup_singleton].
    by intros x Hx ->%list_elem_of_singleton. }
  exists σ1, σ2. split_and!; try done.
  - by rewrite Hs1, decide_True.
  - destruct Hcases as [[-> ?]|[-> _]]; [done|].
    apply elem_of_app. right. apply list_elem_of_here.
  - by rewrite Hs2, decide_True.
  - rewrite Ha2. by apply NoDup_list_remove.
  - rewrite Ha2. destruct Hcases as [[-> _]|[-> Hin]]; [done|].
    by rewrite list_remove_snoc, list_remove_not_in.
  - by rewrite Hp2, Hp1.
Qed.

(** The record the registry holds for a plugin is the one built at
    registration, up to its status: the key is the plugin's id, and id, name,
    version, format, interfaces and the empty dependency map never change. *)
Theorem records_describe_their_plugins σ self id p :
  reachable σ self →
  Dict.get (plugins_of σ self) id = Some p →
  plugin_id p = id
  ∧ ∃ m, metadata_of σ self id = Some m
         ∧ set_format_status REGISTERED m = metadata_for p.
Proof.
  intros Hr. revert id p.
  induction Hr as [σ0 σ self Hinit|σ self c Hr IH]; intros id p.
  - apply PluginRegistry_init_spec in Hinit as (_ & -> & _). done.
  - pose proof (reachable_wf _ _ _ Hr) as Hwf.
    destruct (step_records repr_conflicts σ self c Hwf)
      as [->|[(plugin & compat & deps & -> & Hnew & -> & Hm)
             |(m & s & _ & Hreg & Hmeta & -> & Hm)]].
    + apply IH.
    + rewrite dict_get_set, Hm. case_decide as E.
      * intros [= <-]. subst id. eauto.
      * apply IH.
    + intros Hp. destruct (IH id p Hp) as (Hid & m0 & Hm0 & Hdesc).
      split; [done|]. rewrite Hm. case_decide as E; [|eauto].
      rewrite E, Hmeta in Hm0. injection Hm0 as <-. eauto.
Qed.

(** Nothing unregisters a plugin: through any calls a registered id keeps the
    same plugin object, and the plugin map never gets shorter. *)
Theorem registration_is_permanent σ self id p cs :
  wf σ self →
  Dict.get (plugins_of σ self) id = Some p →
  Dict.get (plugins_of (run self cs σ) self) id = Some p
  ∧ (length (plugins_of σ self) ≤ length (plugins_of (run self cs σ) self))%nat.
Proof.
  revert σ. induction cs as [|c cs IH]; intros σ Hwf Hp; simpl; [done|].
  destruct (step_spec repr_conflicts σ self c Hwf) as [Hwf' _].
  assert (Dict.get (plugins_of (step self c σ) self) id = Some p
          ∧ (length (plugins_of σ self) ≤ length (plugins_of (step self c σ) self))%nat)
    as [Hp' Hlen].
  { destruct (step_records repr_conflicts σ self c Hwf)
      as [->|[(plugin & compat & deps & _ & Hnew & -> & _)|(m & s & _ & _ & _ & -> & _)]];
      [done| |done].
    rewrite dict_get_set, dict_set_length by (by apply eq_None_not_Some).
    split; [|lia]. case_decide as E; [|done].
    subst id. exfalso. apply Hnew. unfold registered. by rewrite Hp. }
  destruct (IH _ Hwf' Hp') as [? ?]. split; [done|lia].
Qed.


Lemma reachable_uninterrupted_reachable σ self :
  reachable_uninterrupted repr_conflicts σ self → reachable σ self.
Proof.
  induction 1 as [σ0 σ self Hinit|σ self c _ IH _]; [by econstructor|].
  by constructor.
Qed.

Lemma run_reachable_uninterrupted σ self cs :
  reachable_uninterrupted repr_conflicts σ self →
  Forall (λ c, interrupted c = false) cs →
  reachable_uninterrupted repr_conflicts (run self cs σ) self.
Proof.
  revert σ. induction cs as [|c cs IH]; intros σ Hr Hcs; simpl; [done|].
  apply Forall_cons in Hcs as [Hc Hcs]. apply IH; [|done]. by constructor.
Qed.

(** Between calls of which no initialize action raised outside [Exception], no
    plugin is ever seen in status [INITIALIZING]: every registered plugin is
    [REGISTERED], [ACTIVE] or [ERROR], and an id has a status exactly when it is
    registered. *)
Theorem initializing_is_never_observed σ self id :
  reachable_uninterrupted repr_conflicts σ self →
  status_of σ self id ≠ Some INITIALIZING
  ∧ (is_Some (status_of σ self id) ↔ registered σ self id).
Proof.
  intros Hr.
  pose proof (reachable_wf _ _ _ (reachable_uninterrupted_reachable _ _ Hr)) as Hwf.
  split.
  - clear Hwf. revert id.
    induction Hr as [σ0 σ self Hinit|σ self c Hr IH Hc]; intros id.
    + apply PluginRegistry_init_spec in Hinit as (_ & _ & Hrefs & _).
      unfold status_of, metadata_of. by rewrite Hrefs.
    + pose proof (reachable_wf _ _ _ (reachable_uninterrupted_reachable _ _ Hr))
        as Hwf.
      destruct (step_spec repr_conflicts σ self c Hwf) as [_ Heff].
      destruct c as [plugin compat deps|id0 [[]|e]|id0 [[]|e]];
        simpl in Heff, Hc.
      * destruct Heff as [_ [->|(_ & _ & ->)]]; [done|]. by case_decide.
      * destruct (decide (operable σ self id0)); [|by rewrite Heff].
        destruct Heff as (_ & _ & ->). by case_decide.
      * destruct (decide (operable σ self id0)); [|by rewrite Heff].
        destruct Heff as (_ & _ & ->). apply negb_false_iff in Hc. rewrite Hc.
        by case_decide.
      * destruct (decide (operable σ self id0)); [|by rewrite Heff].
        destruct Heff as (_ & _ & ->). by case_decide.
      * by rewrite Heff.
  - split.
    + intros [s Hs]. by eapply status_of_registered.
    + intros Hreg.
      destruct (wf_registered_meta σ self Hwf id Hreg) as (l & m & Hl & Hm).
      unfold status_of, metadata_of. rewrite Hl. simpl. rewrite Hm. eauto.
Qed.

(** A call touches only its target: every other id keeps its plugin, its
    record and its place in or out of the active list. *)
Theorem calls_leave_other_plugins_alone σ self c id :
  wf σ self →
  id ≠ target c →
  Dict.get (plugins_of (step self c σ) self) id = Dict.get (plugins_of σ self) id
  ∧ metadata_of (step self c σ) self id = metadata_of σ self id
  ∧ (id ∈ active_of (step self c σ) self ↔ id ∈ active_of σ self).
Proof.
  intros Hwf Hne.
  assert (id ∈ active_of (step self c σ) self ↔ id ∈ active_of σ self) as Hact.
  { destruct (step_spec repr_conflicts σ self c Hwf) as [_ Heff].
    destruct c as [plugin compat deps|id0 [[]|e]|id0 [[]|e]]; simpl in Heff, Hne.
    - destruct Heff as [-> _]. done.
    - destruct (decide (operable σ self id0)); [|by rewrite Heff].
      destruct Heff as (_ & -> & _). case_bool_decide; [done|].
      rewrite elem_of_app, list_elem_of_singleton.
      split; [intros [?| ->]; done | auto].
    - destruct (decide (operable σ self id0)); [|by rewrite Heff].
      destruct Heff as (_ & -> & _). done.
    - destruct (decide (operable σ self id0)); [|by rewrite Heff].
      destruct Heff as (_ & -> & _). split.
      + apply elem_of_list_remove.
      + by apply elem_of_list_remove_ne.
    - by rewrite Heff. }
  destruct (step_records repr_conflicts σ self c Hwf)
    as [->|[(plugin & compat & deps & -> & Hnew & -> & Hm)
           |(m & s & _ & _ & _ & -> & Hm)]]; [done| |].
  - simpl in Hne. rewrite DictFacts.get_set_ne, Hm by done.
    by rewrite decide_False.
  - rewrite Hm. by rewrite decide_False.
Qed.

(** A plugin that keeps the base class's two checks is admitted whenever its id
    is new and its [get_dependencies] returns; when [get_dependencies] raises,
    the exception leaves [register_plugin] and nothing is stored. *)
Theorem base_plugin_is_admitted σ self (b : BaseTableFormatPlugin.t) mro truthy
    get_dependencies :
  wf σ self →
  ¬ registered σ self (BaseTableFormatPlugin.id b) →
  let plugin := BaseTableFormatPlugin.as_plugin b mro truthy in
  let '(r, σ') :=
    register_plugin repr_conflicts self plugin
      (BaseTableFormatPlugin.check_version_compatibility b)
      (BaseTableFormatPlugin.validate_dependencies b get_dependencies) σ in
  match get_dependencies with
  | Ok _ =>
      r = Ok success
      ∧ get_plugin self (BaseTableFormatPlugin.id b) σ' = (Ok (Some plugin), σ')
      ∧ metadata_of σ' self (BaseTableFormatPlugin.id b) = Some (metadata_for plugin)
  | Raise e => r = Raise e ∧ σ' = σ
  end.
Proof.
  intros Hwf Hnew plugin.
  rewrite register_plugin_unregistered by done. simpl.
  destruct get_dependencies as [ds|e]; simpl; [|done].
  split; [done|]. split.
  - unfold get_plugin, read.
    pose proof (enrolled_plugins_of σ self Hwf plugin) as Hp.
    unfold plugins_of in Hp. by rewrite Hp, DictFacts.get_set_eq.
  - rewrite (enrolled_metadata_of σ self Hwf plugin) by done.
    by rewrite decide_True.
Qed.
End Lifecycle.

(** ** The registry of the examples, once more *)

Lemma delta_is_new : ¬ registered store_registered registry0 "delta".
Proof. vm_compute. by intros [? ?]. Qed.


Lemma delta_registered_after_iceberg :
  let '(r, σ') := register_plugin repr_plain registry0 delta_plugin compatible
                                  (Ok success) store_registered in
  r = Ok {| is_valid := true; errors := []; warnings := [] |}
  ∧ get_plugin registry0 "delta" σ' = (Ok (Some delta_plugin), σ')
  ∧ (∃ l, get_plugin_metadata registry0 "delta" σ' = (Ok (Some l), σ')
          ∧ meta_obj σ' l = Some (metadata_for delta_plugin))
  ∧ status_of σ' registry0 "delta" = Some REGISTERED
  ∧ length (plugins_of σ' registry0) = S (length (plugins_of store_registered registry0))
  ∧ active_of σ' registry0 = active_of store_registered registry0
  ∧ ∀ id', id' ≠ "delta" →
           Dict.get (plugins_of σ' registry0) id'
           = Dict.get (plugins_of store_registered registry0) id'
           ∧ metadata_of σ' registry0 id' = metadata_of store_registered registry0 id'.
Proof.
  apply (register_plugin_admits repr_plain store_registered registry0 delta_plugin
           compatible (Ok success) {| is_compatible := true; conflicts := [] |} success).
  - apply store_registered_wf.
  - apply delta_is_new.
  - reflexivity.
  - reflexivity.
  - reflexivity.
  - reflexivity.
Defined.

Lemma delta_rejected_as_incompatible :
  register_plugin repr_plain registry0 delta_plugin
    (λ _, Ok {| is_compatible := false; conflicts := [[("plugin", "iceberg")]] |})
    (Raise (Exception "not reached")) store_registered
  = (Ok {| is_valid := false;
           errors := ["Version compatibility check failed: [{'plugin': 'iceberg'}]"];
           warnings := [] |}, store_registered).
Proof.
  apply (incompatible_plugin_rejected_first repr_plain store_registered registry0
           delta_plugin _ _ {| is_compatible := false;
                               conflicts := [[("plugin", "iceberg")]] |}).
  - apply delta_is_new.
  - reflexivity.
  - reflexivity.
Defined.

Lemma delta_all_or_nothing :
  let '(r, σ') := register_plugin repr_plain registry0 delta_plugin compatible
                                  (Ok success) store_registered in
  match r with
  | Ok v =>
      if is_valid v
      then v = success ∧ ¬ registered store_registered registry0 "delta"
           ∧ registered σ' registry0 "delta" ∧ wf σ' registry0
      else σ' = store_registered
  | Raise _ => σ' = store_registered
  end.
Proof.
  apply (register_plugin_all_or_nothing repr_plain store_registered registry0
           delta_plugin compatible (Ok success)).
  apply store_registered_wf.
Defined.

Lemma delta_not_found :
  initialize_plugin registry0 "delta" (Ok ()) store_registered
  = (Ok {| is_valid := false; errors := ["Plugin delta not found"]; warnings := [] |},
     store_registered)
  ∧ shutdown_plugin registry0 "delta" (Ok ()) store_registered
    = (Ok {| is_valid := false; errors := ["Plugin delta not found"]; warnings := [] |},
       store_registered).
Proof.
  apply (lifecycle_of_unknown_plugin store_registered registry0 "delta" (Ok ())).
  apply delta_is_new.
Defined.

Lemma hollow_not_found :
  initialize_plugin registry0 "hollow" (Ok ()) store_hollow
  = (Ok {| is_valid := false; errors := ["Plugin hollow not found"]; warnings := [] |},
     store_hollow)
  ∧ shutdown_plugin registry0 "hollow" (Ok ()) store_hollow
    = (Ok {| is_valid := false; errors := ["Plugin hollow not found"]; warnings := [] |},
       store_hollow).
Proof.
  apply (lifecycle_of_falsy_plugin store_hollow registry0 "hollow" hollow (Ok ())).
  - reflexivity.
  - reflexivity.
Defined.

(** [hollow] is registered all the same, with status [REGISTERED]. *)
Example hollow_is_registered :
  get_plugin registry0 "hollow" store_hollow = (Ok (Some hollow), store_hollow)
  ∧ status_of store_hollow registry0 "hollow" = Some REGISTERED.
Proof. by vm_compute. Qed.

Lemma iceberg_lifecycle_returns :
  (∃ r σ', initialize_plugin registry0 "iceberg" (Raise (Exception "boom"))
             store_registered = (Ok r, σ')
           ∧ is_valid r
             = (bool_decide (operable store_registered registry0 "iceberg")
                && returned (Raise (A := unit) (Exception "boom"))))
  ∧ (∃ r σ', shutdown_plugin registry0 "iceberg" (Raise (Exception "boom"))
               store_registered = (Ok r, σ')
             ∧ is_valid r
               = (bool_decide (operable store_registered registry0 "iceberg")
                  && returned (Raise (A := unit) (Exception "boom")))).
Proof.
  apply (lifecycle_methods_return repr_plain store_registered registry0 "iceberg").
  - apply store_registered_reachable.
  - reflexivity.
Defined.

Lemma iceberg_round_trip :
  ∃ σ1 σ2,
    initialize_plugin registry0 "iceberg" (Ok ()) store_registered = (Ok success, σ1)
    ∧ status_of σ1 registry0 "iceberg" = Some ACTIVE
    ∧ "iceberg" ∈ active_of σ1 registry0 ∧ NoDup (active_of σ1 registry0)
    ∧ shutdown_plugin registry0 "iceberg" (Ok ()) σ1 = (Ok success, σ2)
    ∧ status_of σ2 registry0 "iceberg" = Some REGISTERED
    ∧ ("iceberg" ∉ active_of σ2 registry0)
    ∧ active_of σ2 registry0 = list_remove "iceberg" (active_of store_registered registry0)
    ∧ plugins_of σ2 registry0 = plugins_of store_registered registry0.
Proof.
  apply (initialize_then_shutdown repr_plain store_registered registry0 "iceberg").
  - apply store_registered_reachable.
  - reflexivity.
Defined.

Lemma failed_iceberg_is_described :
  plugin_id iceberg = "iceberg"
  ∧ ∃ m, metadata_of store_failed registry0 "iceberg" = Some m
         ∧ set_format_status REGISTERED m = metadata_for iceberg.
Proof.
  apply (records_describe_their_plugins repr_plain store_failed registry0 "iceberg" iceberg).
  - apply store_failed_reachable.
  - reflexivity.
Defined.

Lemma iceberg_stays_registered :
  Dict.get (plugins_of (run repr_plain registry0
                          [Initialize "iceberg" (Ok ());
                           Register delta_plugin compatible (Ok success);
                           register_iceberg;
                           Shutdown "iceberg" (Raise (Exception "busy"))]
                          store_registered) registry0) "iceberg" = Some iceberg
  ∧ (length (plugins_of store_registered registry0)
     ≤ length (plugins_of (run repr_plain registry0
                             [Initialize "iceberg" (Ok ());
                              Register delta_plugin compatible (Ok success);
                              register_iceberg;
                              Shutdown "iceberg" (Raise (Exception "busy"))]
                             store_registered) registry0))%nat.
Proof.
  apply (registration_is_permanent repr_plain store_registered registry0 "iceberg" iceberg).
  - apply store_registered_wf.
  - reflexivity.
Defined.


Lemma failed_iceberg_is_not_initializing :
  status_of store_failed registry0 "iceberg" ≠ Some INITIALIZING
  ∧ (is_Some (status_of store_failed registry0 "iceberg")
     ↔ registered store_failed registry0 "iceberg").
Proof.
  apply (initializing_is_never_observed repr_plain store_failed registry0 "iceberg").
  apply (run_reachable_uninterrupted repr_plain store0 registry0
           [register_iceberg; Initialize "iceberg" (Raise (Exception "boom"))]).
  - by apply (reachable_uninterrupted_init repr_plain ∅).
  - by repeat constructor.
Defined.

Lemma iceberg_untouched_by_delta :
  Dict.get (plugins_of (step repr_plain registry0
                          (Register delta_plugin compatible (Ok success))
                          store_registered) registry0) "iceberg"
  = Dict.get (plugins_of store_registered registry0) "iceberg"
  ∧ metadata_of (step repr_plain registry0
                   (Register delta_plugin compatible (Ok success))
                   store_registered) registry0 "iceberg"
    = metadata_of store_registered registry0 "iceberg"
  ∧ ("iceberg" ∈ active_of (step repr_plain registry0
                              (Register delta_plugin compatible (Ok success))
                              store_registered) registry0
     ↔ "iceberg" ∈ active_of store_registered registry0).
Proof.
  apply (calls_leave_other_plugins_alone repr_plain store_registered registry0
           (Register delta_plugin compatible (Ok success)) "iceberg").
  - apply store_registered_wf.
  - simpl. discriminate.
Defined.

Lemma delta_admitted_with_base_checks :
  let plugin := delta_plugin in
  let '(r, σ') :=
    register_plugin repr_plain registry0 plugin
      (BaseTableFormatPlugin.check_version_compatibility delta)
      (BaseTableFormatPlugin.validate_dependencies delta (Ok [])) store_registered in
  r = Ok success
  ∧ get_plugin registry0 "delta" σ' = (Ok (Some plugin), σ')
  ∧ metadata_of σ' registry0 "delta" = Some (metadata_for plugin).
Proof.
  apply (base_plugin_is_admitted repr_plain store_registered registry0 delta
           (plugin_mro delta_plugin) true (Ok [])).
  - apply store_registered_wf.
  - apply delta_is_new.
Defined.

(** * More of the dependency resolver *)

Lemma dict_elem_of_get {V} (d : list (string * V)) k v :
  NoDup (Dict.keys d) → (k, v) ∈ d → Dict.get d k = Some v.
Proof.
  unfold Dict.keys. induction d as [|[k0 v0] d IH]; simpl.
  - by intros _ ?%elem_of_nil.
  - rewrite NoDup_cons. intros [Hk0 Hnd] [[= -> ->]|Hin]%elem_of_cons.
    + by rewrite decide_True.
    + rewrite decide_False; [by apply IH|].
      intros ->. apply Hk0. apply list_elem_of_fmap. by exists (k, v).
Qed.

Lemma dict_set_keys_NoDup {V} (d : list (string * V)) k v :
  NoDup (Dict.keys d) → NoDup (Dict.keys (Dict.set d k v)).
Proof.
  intros Hnd. destruct (Dict.get d k) eqn:Hk.
  - by rewrite DictFacts.keys_set_old.
  - rewrite DictFacts.keys_set_new by done. apply NoDup_app.
    split; [done|]. split; [|apply NoDup_singleton].
    intros x Hx ->%list_elem_of_singleton.
    by apply DictFacts.get_None_keys in Hk.
Qed.

Section Validation.
Context `{Packaging, Runtime}.

Lemma item_errors_passes pm item :
  item_errors pm item = [] ↔ item_passes item = true.
Proof.
  destruct item as [name spec]. unfold item_errors, item_passes.
  destruct (decide (dep_scope spec = TEST)); [done|].
  destruct (Requirement _) as [req|e]; [|done].
  destruct (specifier_contains req version_0_0_0); [done|]. simpl.
  destruct (decide (dep_type spec = REQUIRED)) as [Hr|Hr].
  - by rewrite bool_decide_eq_true_2.
  - by rewrite bool_decide_eq_false_2.
Qed.

(** One turn of the loop, exactly. *)
Lemma validate_dependency_exact pm item errs warns w :
  ∃ es w',
    validate_dependency pm item (errs, warns) w
    = (Ok (errs ++ es, warns ++ item_warnings item), w')
    ∧ error_header <$> es = item_errors pm item
    ∧ manager w' = manager w
    ∧ clock_reads w' = clock_reads w + length es.
Proof.
  destruct item as [name spec].
  unfold validate_dependency, item_errors, item_warnings.
  destruct (decide (dep_scope spec = TEST)) as [Ht|Ht].
  { exists [], w. rewrite !app_nil_r. simpl. split_and!; try done; lia. }
  unfold_D. simpl.
  destruct (Requirement (name +:+ dep_version spec)) as [sp|ex] eqn:Hreq.
  - destruct (specifier_contains sp version_0_0_0) eqn:Hc; simpl.
    + eexists [], _. rewrite !app_nil_r. split; [reflexivity|]. simpl.
      split_and!; try done; lia.
    + destruct (decide (dep_type spec = REQUIRED)) as [Hr|Hr].
      * eexists [_], _. rewrite !app_nil_r. split; [reflexivity|]. simpl.
        split_and!; try done; lia.
      * eexists [], _. rewrite !app_nil_r. split; [reflexivity|]. simpl.
        split_and!; try done; lia.
  - rewrite (Requirement_raises_Exception _ _ Hreq).
    eexists [_], _. rewrite !app_nil_r. split; [reflexivity|]. simpl.
    split_and!; try done; lia.
Qed.

Lemma validate_all_exact pm items errs warns w :
  ∃ es w',
    for_each (validate_dependency pm) items (errs, warns) w
    = (Ok (errs ++ es, warns ++ (items ≫= item_warnings)), w')
    ∧ error_header <$> es = items ≫= item_errors pm
    ∧ manager w' = manager w
    ∧ clock_reads w' = clock_reads w + length es.
Proof.
  revert errs warns w. induction items as [|item items IH]; intros errs warns w.
  { exists [], w. rewrite !app_nil_r. simpl. split_and!; try done; lia. }
  destruct (validate_dependency_exact pm item errs warns w)
    as (es1 & w1 & Hrun1 & Hh1 & Hm1 & Hc1).
  destruct (IH (errs ++ es1) (warns ++ item_warnings item) w1)
    as (es2 & w2 & Hrun2 & Hh2 & Hm2 & Hc2).
  exists (es1 ++ es2), w2. split_and!.
  - rewrite for_each_cons, Hrun1, Hrun2. by rewrite bind_cons, !app_assoc.
  - by rewrite fmap_app, bind_cons, Hh1, Hh2.
  - congruence.
  - rewrite length_app. lia.
Qed.

(** [validate_dependencies], past the cache check, collects the findings of
    the items in the order of the dependency map, one after the other and none
    left out: an item that fails does not stop the ones after it.  It reads
    the clock once for each error and once for the stamp. *)
Theorem validation_collects_every_finding pm w :
  ∃ errs warns w',
    validate_uncached pm w = (Ok (validation_result errs warns), w')
    ∧ error_header <$> errs = pm_dependencies pm ≫= item_errors pm
    ∧ warns = pm_dependencies pm ≫= item_warnings
    ∧ lookups w' = lookups w ++ runtime_names (pm_dependencies pm)
    ∧ clock_reads w' = S (clock_reads w + length errs).
Proof.
  destruct (validate_uncached_spec pm w) as (errs & warns & w1 & Hrun & Hun).
  destruct (validate_all_exact pm (pm_dependencies pm) [] [] w)
    as (es & w1' & Hrun' & Hh & _ & Hc).
  simpl in Hrun'. rewrite Hrun in Hrun'. injection Hrun' as -> -> ->.
  eexists es, _, _. split; [exact Hun|]. simpl.
  split_and!; try done. by rewrite Hc.
Qed.

(** What [validate_dependencies] computes is valid exactly when every item
    passes: each is in the test scope, or its requirement parses and either
    admits 0.0.0 or is optional.  A valid result has no error. *)
Theorem validation_passes_iff_items_pass pm w :
  ∃ r w',
    validate_uncached pm w = (Ok r, w')
    ∧ is_valid r = forallb item_passes (pm_dependencies pm)
    ∧ (is_valid r = true ↔ errors r = []).
Proof.
  destruct (validation_collects_every_finding pm w)
    as (errs & warns & w' & Hrun & Hh & _).
  eexists _, w'. split; [exact Hrun|]. simpl.
  assert (errs = [] ↔ forallb item_passes (pm_dependencies pm) = true) as Hiff.
  { assert (errs = [] ↔ error_header <$> errs = []) as ->
      by (split; [by intros ->|apply fmap_nil_inv]).
    rewrite Hh. clear Hh Hrun.
    induction (pm_dependencies pm) as [|item items IH]; [done|].
    cbn [forallb]. rewrite bind_cons, app_nil, andb_true_iff, IH.
    by rewrite item_errors_passes. }
  split.
  - destruct (forallb item_passes (pm_dependencies pm)).
    + apply bool_decide_eq_true. by rewrite (proj2 Hiff eq_refl).
    + apply bool_decide_eq_false. intros Hlen%nil_length_inv.
      by apply Hiff in Hlen.
  - rewrite bool_decide_eq_true. split.
    + by intros ->%nil_length_inv.
    + by intros ->%fmap_nil_inv.
Qed.


(** A dependency map whose items are all in the test scope (an empty one too)
    validates on a cache miss without a single lookup: the result is valid with
    no error and no warning, and is cached under the plugin's key. *)
Theorem test_scope_is_not_validated pm w :
  Forall (λ item, dep_scope item.2 = TEST) (pm_dependencies pm) →
  _validation_cache (manager w) !! (pm_id pm, pm_version pm) = None →
  ∃ w',
    validate_dependencies pm w
    = (Ok {| is_valid := true; errors := []; warnings := [] |}, w')
    ∧ lookups w' = lookups w
    ∧ clock_reads w' = S (clock_reads w)
    ∧ _validation_cache (manager w') !! (pm_id pm, pm_version pm)
      = Some ({| is_valid := true; errors := []; warnings := [] |},
              utcnow_at (clock_reads w)).
Proof.
  intros Htest Hmiss. rewrite (validate_dependencies_uncached pm w Hmiss).
  destruct (validate_uncached_spec pm w) as (errs & warns & w1 & Hrun & Hun).
  destruct (validate_all_exact pm (pm_dependencies pm) [] [] w)
    as (es & w1' & Hrun' & Hh & _ & Hc).
  simpl in Hrun'. rewrite Hrun in Hrun'. injection Hrun' as -> -> ->.
  assert (pm_dependencies pm ≫= item_errors pm = []
          ∧ pm_dependencies pm ≫= item_warnings = []
          ∧ runtime_names (pm_dependencies pm) = []) as (He & Hw & Hn).
  { clear -Htest. induction Htest as [|[name spec] items Ht _ IH]; [done|].
    simpl in Ht. destruct IH as (IH1 & IH2 & IH3).
    rewrite !bind_cons, IH1, IH2, (runtime_names_cons (name, spec)), IH3.
    unfold item_errors, item_warnings, runtime_names.
    rewrite !decide_True by done.
    rewrite filter_cons_False by (simpl; intros Hn; by apply Hn). done. }
  rewrite He in Hh. apply fmap_nil_inv in Hh. subst es.
  rewrite Hun, Hw, Hn. eexists. split; [reflexivity|]. simpl.
  rewrite app_nil_r, lookup_insert_eq. split_and!; try done.
  - rewrite Hc. simpl. lia.
  - do 2 f_equal. rewrite Hc. simpl. f_equal. lia.
Qed.

(** A call of [validate_dependencies] always returns, keeps the configuration,
    and touches no cache entry but the one of its plugin's key; no entry is
    ever dropped. *)
Theorem validation_touches_one_cache_entry pm w :
  ∃ r w',
    validate_dependencies pm w = (Ok r, w')
    ∧ _config (manager w') = _config (manager w)
    ∧ (∀ key, key ≠ (pm_id pm, pm_version pm) →
              _validation_cache (manager w') !! key
              = _validation_cache (manager w) !! key)
    ∧ (∀ key, is_Some (_validation_cache (manager w) !! key) →
              is_Some (_validation_cache (manager w') !! key)).
Proof.
  assert (∀ w0, _config (manager w0) = _config (manager w) →
                _validation_cache (manager w0) = _validation_cache (manager w) →
                ∃ r w', validate_uncached pm w0 = (Ok r, w')
                  ∧ _config (manager w') = _config (manager w)
                  ∧ (∀ key, key ≠ (pm_id pm, pm_version pm) →
                       _validation_cache (manager w') !! key
                       = _validation_cache (manager w) !! key)
                  ∧ (∀ key, is_Some (_validation_cache (manager w) !! key) →
                       is_Some (_validation_cache (manager w') !! key))) as Hun.
  { intros w0 Hcfg Hcache.
    destruct (validate_uncached_spec pm w0) as (errs & warns & w1 & _ & ->).
    eexists _, _. split; [reflexivity|]. simpl. rewrite Hcache.
    split_and!; [done| |].
    - intros key Hne. by rewrite lookup_insert_ne.
    - intros key Hsome. rewrite lookup_insert. by case_decide. }
  destruct (_validation_cache (manager w) !! (pm_id pm, pm_version pm))
    as [[result ts]|] eqn:Hc.
  - rewrite (validate_dependencies_cached pm w result ts Hc).
    case_bool_decide; [|by apply Hun].
    by exists result, (clock_read w).
  - rewrite (validate_dependencies_uncached pm w Hc). by apply Hun.
Qed.
End Validation.

(** ** The dependency graph *)

Lemma requires_nil name r : ¬ requires [] name r.
Proof. by intros (X & ? & _). Qed.

Lemma requires_members graph name r :
  requires graph name r ↔ r ∈ default (∅ : gset (string * string)) (Dict.get graph name).
Proof.
  unfold requires. destruct (Dict.get graph name) as [Y|]; simpl.
  - split; [by intros (X & [= <-] & ?)|eauto].
  - split; [by intros (X & ? & _)|by intros ?%not_elem_of_empty].
Qed.

Lemma add_requirement_requires plugin graph dep_name spec name r :
  requires (add_requirement plugin graph (dep_name, spec)) name r
  ↔ requires graph name r ∨ (name = dep_name ∧ r = (pm_id plugin, dep_version spec)).
Proof.
  rewrite !requires_members. unfold add_requirement.
  set (graph' := if Dict.contains graph dep_name then graph
                 else Dict.set graph dep_name ∅).
  assert (∀ n, default (∅ : gset (string * string)) (Dict.get graph' n)
               = default ∅ (Dict.get graph n)) as Hsame.
  { intros n. unfold graph', Dict.contains. case_bool_decide as Hc; [done|].
    rewrite dict_get_set. case_decide as E; [|done]. subst n. simpl.
    apply eq_None_not_Some in Hc. by rewrite Hc. }
  rewrite dict_get_set. case_decide as E.
  - subst name. simpl. rewrite Hsame, elem_of_union, elem_of_singleton.
    split; [intros [?|?]; auto|intros [?|[_ ?]]; auto].
  - rewrite Hsame. split; [auto|]. intros [?|[? _]]; done.
Qed.

Lemma add_requirement_keys plugin graph item :
  NoDup (Dict.keys graph) → NoDup (Dict.keys (add_requirement plugin graph item)).
Proof.
  intros Hnd. destruct item as [dep_name spec]. unfold add_requirement.
  apply dict_set_keys_NoDup. destruct (Dict.contains graph dep_name); [done|].
  by apply dict_set_keys_NoDup.
Qed.

(** The graph [resolve_dependencies] builds holds, under each dependency name,
    exactly the pairs [(plugin.id, version)] of the plugins that declare it;
    every name appears once. *)
Theorem dependency_graph_is_exact plugins name r :
  (requires (dependency_graph plugins) name r
   ↔ ∃ p spec, p ∈ plugins ∧ (name, spec) ∈ pm_dependencies p
               ∧ r = (pm_id p, dep_version spec))
  ∧ NoDup (Dict.keys (dependency_graph plugins)).
Proof.
  unfold dependency_graph.
  assert (∀ p items graph,
            (requires (foldl (add_requirement p) graph items) name r
             ↔ requires graph name r
               ∨ ∃ spec, (name, spec) ∈ items ∧ r = (pm_id p, dep_version spec))
            ∧ (NoDup (Dict.keys graph) →
               NoDup (Dict.keys (foldl (add_requirement p) graph items)))) as Hitems.
  { intros p items. induction items as [|[n spec] items IH]; intros graph; simpl.
    - split; [|done]. split; [auto|]. intros [?|(spec & ?%elem_of_nil & _)]; done.
    - destruct (IH (add_requirement p graph (n, spec))) as [IH1 IH2]. split.
      + rewrite IH1, add_requirement_requires. split.
        * intros [[?|[-> ->]]|(spec' & ? & ?)]; [auto| |].
          -- right. exists spec. split; [apply list_elem_of_here|done].
          -- right. exists spec'. split; [by apply list_elem_of_further|done].
        * intros [?|(spec' & [[= -> ->]|?]%elem_of_cons & ->)]; [auto|auto|].
          right. eauto.
      + intros Hnd. by apply IH2, add_requirement_keys. }
  assert (∀ graph,
            (requires (foldl (λ dependencies plugin,
                                foldl (add_requirement plugin) dependencies
                                      (pm_dependencies plugin)) graph plugins) name r
             ↔ requires graph name r
               ∨ ∃ p spec, p ∈ plugins ∧ (name, spec) ∈ pm_dependencies p
                           ∧ r = (pm_id p, dep_version spec))
            ∧ (NoDup (Dict.keys graph) →
               NoDup (Dict.keys (foldl (λ dependencies plugin,
                                          foldl (add_requirement plugin) dependencies
                                                (pm_dependencies plugin))
                                       graph plugins)))) as Hplugins.
  { induction plugins as [|p plugins IH]; intros graph; simpl.
    - split; [|done]. split; [auto|].
      intros [?|(p & spec & ?%elem_of_nil & _)]; done.
    - destruct (IH (foldl (add_requirement p) graph (pm_dependencies p)))
        as [IH1 IH2].
      destruct (Hitems p (pm_dependencies p) graph) as [Hi1 Hi2]. split.
      + rewrite IH1, Hi1. split.
        * intros [[?|(spec & ? & ?)]|(p' & spec & ? & ? & ?)]; [auto| |].
          -- right. exists p, spec. split; [apply list_elem_of_here|done].
          -- right. exists p', spec. split; [by apply list_elem_of_further|done].
        * intros [?|(p' & spec & [->|?]%elem_of_cons & ? & ?)]; [auto| |].
          -- left. right. eauto.
          -- right. eauto 6.
      + intros Hnd. by apply IH2, Hi2. }
  destruct (Hplugins []) as [H1 H2]. split.
  - rewrite H1. split; [|auto]. intros [?%requires_nil|?]; done.
  - apply H2. constructor.
Qed.

(** ** Resolution, exactly *)

Section Resolution.
Context `{Packaging, Runtime}.

(** One group of requirements. *)
Lemma resolve_requirement_exact item errs w :
  (∀ X, set_iter X ≡ₚ elements X) →
  ∃ es w',
    resolve_requirement item errs w = (Ok (errs ++ es), w')
    ∧ error_header <$> es = group_errors item
    ∧ manager w' = manager w ∧ lookups w' = lookups w
    ∧ clock_reads w' = clock_reads w + length es.
Proof.
  intros Hiter. destruct item as [name X]. unfold resolve_requirement, group_errors.
  case_bool_decide as Hsize; simpl.
  2:{ exists [], w. rewrite app_nil_r. split_and!; try done; lia. }
  unfold_D. unfold _merge_version_requirements.
  destruct (decide (X = ∅)) as [->|Hnonempty].
  { rewrite size_empty in Hsize. lia. }
  pose proof (Hiter X) as Hperm.
  destruct (set_iter X) as [|first rest] eqn:Hit.
  { symmetry in Hperm. apply Permutation_nil_r in Hperm.
    apply elements_empty_inv, leibniz_equiv in Hperm. done. }
  simpl. destruct (decide (first.2 = "")) as [Hempty|Hempty].
  - rewrite !bool_decide_eq_true_2 by (by rewrite ?Hempty). simpl.
    eexists [_], _. split; [reflexivity|]. simpl. split_and!; try done; lia.
  - rewrite (bool_decide_eq_false_2 (first.2 = "")) by done.
    rewrite bool_decide_eq_false_2 by (by intros [= ?]). simpl.
    exists [], w. rewrite app_nil_r. split_and!; try done; lia.
Qed.

Lemma resolve_all_exact graph errs w :
  (∀ X, set_iter X ≡ₚ elements X) →
  ∃ es w',
    for_each resolve_requirement graph errs w = (Ok (errs ++ es), w')
    ∧ error_header <$> es = graph ≫= group_errors
    ∧ manager w' = manager w ∧ lookups w' = lookups w
    ∧ clock_reads w' = clock_reads w + length es.
Proof.
  intros Hiter. revert errs w.
  induction graph as [|item graph IH]; intros errs w.
  { exists [], w. rewrite app_nil_r. split_and!; try done; lia. }
  destruct (resolve_requirement_exact item errs w Hiter)
    as (es1 & w1 & Hrun1 & Hh1 & Hm1 & Hl1 & Hc1).
  destruct (IH (errs ++ es1) w1) as (es2 & w2 & Hrun2 & Hh2 & Hm2 & Hl2 & Hc2).
  exists (es1 ++ es2), w2. split_and!.
  - rewrite for_each_cons, Hrun1, Hrun2. by rewrite app_assoc.
  - by rewrite fmap_app, bind_cons, Hh1, Hh2.
  - congruence.
  - congruence.
  - rewrite length_app. lia.
Qed.

(** [resolve_dependencies] reports one [DEP004] error for each dependency name
    that two or more (plugin, version) pairs require and whose pair iterated
    first has an empty version string, in the order of the graph, and nothing
    else: the result is valid exactly when there is none, and there is never a
    warning. *)
Theorem resolution_reports_empty_versions_only plugins w :
  (∀ X, set_iter X ≡ₚ elements X) →
  ∃ errs w',
    resolve_dependencies plugins w = (Ok (validation_result errs []), w')
    ∧ error_header <$> errs = dependency_graph plugins ≫= group_errors
    ∧ is_valid (validation_result errs [])
      = bool_decide (dependency_graph plugins ≫= group_errors = []).
Proof.
  intros Hiter.
  destruct (resolve_all_exact (dependency_graph plugins) [] w Hiter)
    as (errs & w' & Hrun & Hh & _).
  exists errs, w'. unfold resolve_dependencies, resolve_errors.
  unfold mbind at 1. unfold ST_bind, bind. rewrite Hrun. simpl.
  split; [done|]. split; [done|]. rewrite <-Hh.
  destruct errs; by simpl.
Qed.

(** Resolution keeps nothing and asks nothing: the manager, its cache included,
    and the log of version lookups are as before, the clock is read once for
    each error, and no error is a [DEP005]: each is a [DEP004] of the
    resolver. *)
Theorem resolution_leaves_the_manager_alone plugins w :
  (∀ X, set_iter X ≡ₚ elements X) →
  ∃ r w',
    resolve_dependencies plugins w = (Ok r, w')
    ∧ manager w' = manager w ∧ lookups w' = lookups w
    ∧ clock_reads w' = clock_reads w + length (errors r)
    ∧ warnings r = []
    ∧ ∃ errs, errors r = str_ErrorResponse <$> errs
              ∧ ∀ e, e ∈ errs → code e = "DEP004" ∧ component e = "dependency_resolver".
Proof.
  intros Hiter.
  destruct (resolve_all_exact (dependency_graph plugins) [] w Hiter)
    as (errs & w' & Hrun & Hh & Hm & Hl & Hc).
  exists (validation_result errs []), w'.
  unfold resolve_dependencies, resolve_errors.
  unfold mbind at 1. unfold ST_bind, bind. rewrite Hrun. simpl.
  rewrite length_fmap. split_and!; try done.
  exists errs. split; [done|]. intros e He.
  assert (error_header e ∈ dependency_graph plugins ≫= group_errors) as Hin.
  { rewrite <-Hh. apply list_elem_of_fmap. eauto. }
  apply list_elem_of_bind in Hin as ([name X] & Hin & _).
  unfold group_errors in Hin.
  destruct (_ && _); [|by apply elem_of_nil in Hin].
  apply list_elem_of_singleton in Hin. unfold error_header in Hin.
  by injection Hin as -> -> _ _.
Qed.

(** Plugins that never require one dependency name with two different
    (plugin, version) pairs pass resolution, whatever the version strings: a
    plugin alone, or plugins with disjoint dependency names. *)
Theorem unshared_dependencies_never_conflict plugins w :
  (∀ p1 p2 name spec1 spec2,
     p1 ∈ plugins → p2 ∈ plugins →
     (name, spec1) ∈ pm_dependencies p1 → (name, spec2) ∈ pm_dependencies p2 →
     (pm_id p1, dep_version spec1) = (pm_id p2, dep_version spec2)) →
  resolve_dependencies plugins w
  = (Ok {| is_valid := true; errors := []; warnings := [] |}, w).
Proof.
  intros Hone.
  assert (∀ name X, (name, X) ∈ dependency_graph plugins → ¬ 1 < size X) as Hsmall.
  { intros name X Hin Hsize.
    destruct (dependency_graph_is_exact plugins name ("", "")) as [_ Hnd].
    pose proof (dict_elem_of_get _ _ _ Hnd Hin) as Hget.
    assert (∀ q, q ∈ X → ∃ p spec, p ∈ plugins ∧ (name, spec) ∈ pm_dependencies p
                                   ∧ q = (pm_id p, dep_version spec)) as Hall.
    { intros q Hq. apply (dependency_graph_is_exact plugins name q). by exists X. }
    destruct (size_pos_elem_of X) as [x Hx]; [lia|].
    assert (X = {[x]}) as ->.
    { apply set_eq. intros y. rewrite elem_of_singleton. split; [|by intros ->].
      intros Hy. destruct (Hall x Hx) as (p1 & s1 & ? & ? & ->).
      destruct (Hall y Hy) as (p2 & s2 & ? & ? & ->). symmetry. by eapply Hone. }
    rewrite size_singleton in Hsize. lia. }
  unfold resolve_dependencies, resolve_errors.
  assert (∀ errs, for_each resolve_requirement (dependency_graph plugins) errs w
                  = (Ok errs, w)) as Hrun.
  { revert Hsmall. generalize (dependency_graph plugins) as graph.
    induction graph as [|[name X] graph IH]; intros Hsmall errs; [done|].
    rewrite for_each_cons. unfold resolve_requirement at 1.
    rewrite bool_decide_eq_false_2
      by (eapply Hsmall, list_elem_of_here).
    apply IH. intros n Y ?. eapply Hsmall. by apply list_elem_of_further. }
  unfold mbind, ST_bind, bind. by rewrite Hrun.
Qed.
End Resolution.

(** ** The resolver on more plugins *)


Lemma paimon_is_not_validated :
  ∃ w',
    validate_dependencies Samples.test_only Demo.world0
    = (Ok {| is_valid := true; errors := []; warnings := [] |}, w')
    ∧ lookups w' = lookups Demo.world0
    ∧ clock_reads w' = S (clock_reads Demo.world0)
    ∧ _validation_cache (manager w') !! ("paimon", "0.5.0")
      = Some ({| is_valid := true; errors := []; warnings := [] |},
              utcnow_at (clock_reads Demo.world0)).
Proof.
  apply (test_scope_is_not_validated Samples.test_only Demo.world0).
  - repeat constructor.
  - reflexivity.
Defined.

Lemma numpy_resolution_is_exact :
  ∃ errs w',
    resolve_dependencies [Demo.plugin1; Demo.plugin2] Demo.world0
    = (Ok (validation_result errs []), w')
    ∧ error_header <$> errs
      = dependency_graph [Demo.plugin1; Demo.plugin2] ≫= group_errors
    ∧ is_valid (validation_result errs [])
      = bool_decide (dependency_graph [Demo.plugin1; Demo.plugin2] ≫= group_errors = []).
Proof.
  apply (resolution_reports_empty_versions_only [Demo.plugin1; Demo.plugin2] Demo.world0).
  intros X. reflexivity.
Defined.

Lemma numpy_resolution_keeps_the_manager :
  ∃ r w',
    resolve_dependencies [Demo.plugin1; Demo.plugin2] Demo.world0 = (Ok r, w')
    ∧ manager w' = manager Demo.world0 ∧ lookups w' = lookups Demo.world0
    ∧ clock_reads w' = clock_reads Demo.world0 + length (errors r)
    ∧ warnings r = []
    ∧ ∃ errs, errors r = str_ErrorResponse <$> errs
              ∧ ∀ e, e ∈ errs → code e = "DEP004" ∧ component e = "dependency_resolver".
Proof.
  apply (resolution_leaves_the_manager_alone [Demo.plugin1; Demo.plugin2] Demo.world0).
  intros X. reflexivity.
Defined.

Lemma sample_alone_never_conflicts :
  resolve_dependencies [Demo.sample_plugin_metadata] Demo.world0
  = (Ok {| is_valid := true; errors := []; warnings := [] |}, Demo.world0).
Proof.
  apply (unshared_dependencies_never_conflict [Demo.sample_plugin_metadata] Demo.world0).
  intros p1 p2 name spec1 spec2 ->%list_elem_of_singleton ->%list_elem_of_singleton.
  simpl. rewrite !elem_of_cons.
  intros [[= -> ->]|[[= -> ->]|?%elem_of_nil]] [[= <-]|[[= <-]|?%elem_of_nil]];
    done.
Defined.

(** Two plugins that both give an empty version string for numpy: whichever
    pair the set yields first, its version is empty, and the one error is a
    [DEP004]. *)
Example empty_versions_are_a_conflict :
  (resolve_dependencies [Demo.numpy_plugin "a" "A" ""; Demo.numpy_plugin "b" "B" ""]
                        Demo.world0).1
  = Ok {| is_valid := false;
          errors := ["code='DEP004' component='dependency_resolver' message='Incompatible version requirements for numpy'"];
          warnings := [] |}.
Proof. by vm_compute. Qed.

(** The optional dependency of the hudi sample does not parse: one [DEP003]
    error, an invalid result. *)
Example hudi_validation :
  (validate_dependencies Samples.optional_malformed Demo.world0).1
  = Ok {| is_valid := false;
          errors := ["code='DEP003' component='hudi' message='Error validating dependency pyarrow'"];
          warnings := [] |}.
Proof. by vm_compute. Qed.
